(** * ClickHouse storage layer of the relay: query planner, result assembly,
      batch inserter

    Shallow embedding of [query.go] ([buildQuery], [scanEvent],
    [queryFilter], [deduplicateEvents]) and of the batch-inserter goroutine
    of [insert.go] ([batchInserterOptimized]), followed by the properties
    that the design document states about them.

    Conventions.
    - Go [string] is [string]; [[]string] is [list string];
      [map[string][]string] is [gmap string (list string)], and an index
      expression [m[k]] on a missing key yields the nil slice, i.e. [[]].
    - Go [int] and [nostr.Timestamp] are modelled by [Z]; the conversions
      [uint16(x)] and [uint32(x)] are written out as [x mod 2^16] and
      [x mod 2^32].
    - A [strings.Builder] is the string written so far; [WriteString] is
      concatenation on the right.
    - The variadic [[]interface{}] of bound parameters is a list of the
      tagged union [Arg]. *)

From Stdlib Require Import ZArith DecimalString.
From stdpp Require Import gmap strings list.

Local Open Scope Z_scope.

(** ** Data model (package [nostr]) *)

Module Event.
Record t : Type := mk {
  ID : string;
  PubKey : string;
  CreatedAt : Z;
  Kind : Z;
  Tags : list (list string);
  Content : string;
  Sig : string
}.
End Event.

Module Filter.
Record t : Type := mk {
  IDs : list string;
  Kinds : list Z;
  Authors : list string;
  Tags : gmap string (list string);
  Since : option Z;
  Until : option Z;
  Limit : Z;
  Search : string
}.

(** The zero value of the struct. *)
Definition zero : t :=
  mk [] [] [] ∅ None None 0 "".
End Filter.

(** One bound parameter of a statement. *)
Inductive Arg : Type :=
| ArgString (s : string)
| ArgUint16 (n : Z)
| ArgUint32 (n : Z)
| ArgStrings (l : list string).

(** ** Go library functions used by the planner *)

(** [strings.Join(elems, sep)]. *)
Fixpoint Join (elems : list string) (sep : string) : string :=
  match elems with
  | [] => ""
  | [x] => x
  | x :: rest => x +:+ sep +:+ Join rest sep
  end.

(** [fmt.Sprintf("%d", n)] for an integer. *)
Definition formatInt (n : Z) : string :=
  NilZero.string_of_int (Z.to_int n).

Definition uint16 (x : Z) : Z := x mod 2 ^ 16.
Definition uint32 (x : Z) : Z := x mod 2 ^ 32.


(** ** [buildQuery] *)

Section Storage.

(** The receiver's [s.database]. *)
Variable database : string.

(** [filter.Tags[name]]. *)
Definition tagValues (filter : Filter.t) (name : string) : list string :=
  default [] (Filter.Tags filter !! name).

(** [len(filter.Tags[name]) > 0]. *)
Definition populated (filter : Filter.t) (name : string) : bool :=
  (0 <? length (tagValues filter name))%nat.

(** [len(xs) > 0] *)
Definition nonEmpty {A : Type} (xs : list A) : bool :=
  (0 <? length xs)%nat.

(** Lines 48-64: the counter of requested tag types. *)
Definition tagTypeCount (filter : Filter.t) : Z :=
  let tagTypeCount := 0 in
  let tagTypeCount :=
    if populated filter "p" then tagTypeCount + 1 else tagTypeCount in
  let tagTypeCount :=
    if populated filter "e" then tagTypeCount + 1 else tagTypeCount in
  let tagTypeCount :=
    if populated filter "a" then tagTypeCount + 1 else tagTypeCount in
  let tagTypeCount :=
    if populated filter "t" then tagTypeCount + 1 else tagTypeCount in
  let tagTypeCount :=
    if populated filter "d" then tagTypeCount + 1 else tagTypeCount in
  tagTypeCount.

(** [fmt.Sprintf("%s.<suffix>", s.database)]. *)
Definition tableName (suffix : string) : string :=
  database +:+ "." +:+ suffix.

(** Lines 69-85: the routing switch; the first case that holds wins. *)
Definition table (filter : Filter.t) : string :=
  if nonEmpty (Filter.IDs filter) then tableName "events"
  else if nonEmpty (Filter.Authors filter) then tableName "events_by_author"
  else if nonEmpty (Filter.Kinds filter) then tableName "events_by_kind"
  else if (tagTypeCount filter =? 1) && populated filter "p"
       then tableName "events_by_tag_p"
  else if (tagTypeCount filter =? 1) && populated filter "e"
       then tableName "events_by_tag_e"
  else tableName "events".

(** The pair of accumulators [conditions], [args] threaded through the
    blocks of lines 97-198. *)
Definition Clauses : Type := list string * list Arg.

(** One placeholder per element, then
    [fmt.Sprintf("<column> IN (%s)", strings.Join(placeholders, ","))]. *)
Definition inList (column : string) (n : nat) : string :=
  column +:+ " IN (" +:+ Join (replicate n "?") "," +:+ ")".

(** The shape shared by the id, author, kind, tag-value and [d] blocks:
    nothing happens on an empty list; otherwise every element is bound as
    its own parameter and one [IN] condition is appended. *)
Definition addInList {A : Type} (column : string) (bind : A → Arg)
    (xs : list A) (c : Clauses) : Clauses :=
  if nonEmpty xs
  then (c.1 ++ [inList column (length xs)], c.2 ++ (bind <$> xs))
  else c.

(** [hasAny(<column>, ?)] with the whole slice bound as one parameter. *)
Definition addHasAny (column : string) (xs : list string) (c : Clauses)
    : Clauses :=
  (c.1 ++ ["hasAny(" +:+ column +:+ ", ?)"], c.2 ++ [ArgStrings xs]).

(** Lines 132-140. *)
Definition addBound (condition : string) (bound : option Z) (c : Clauses)
    : Clauses :=
  match bound with
  | Some ts => (c.1 ++ [condition], c.2 ++ [ArgUint32 (uint32 ts)])
  | None => c
  end.

(** Lines 143-173: the [e] and [p] blocks, which look at the routed table. *)
Definition addRoutedTag (name : string) (filter : Filter.t) (c : Clauses)
    : Clauses :=
  let tags := tagValues filter name in
  if nonEmpty tags then
    if String.eqb (table filter) (tableName ("events_by_tag_" +:+ name))
    then addInList ("tag_" +:+ name +:+ "_value") ArgString tags c
    else addHasAny ("tag_" +:+ name) tags c
  else c.

(** Lines 175-183: the [a] and [t] blocks. *)
Definition addArrayTag (name : string) (filter : Filter.t) (c : Clauses)
    : Clauses :=
  let tags := tagValues filter name in
  if nonEmpty tags then addHasAny ("tag_" +:+ name) tags c else c.

(** Lines 195-198. *)
Definition addSearch (filter : Filter.t) (c : Clauses) : Clauses :=
  if String.eqb (Filter.Search filter) "" then c
  else (c.1 ++ ["hasToken(content, ?)"],
        c.2 ++ [ArgString (Filter.Search filter)]).

(** Lines 97-198 in program order. *)
Definition clauses (filter : Filter.t) : Clauses :=
  let c : Clauses := (["deleted = 0"], []) in
  let c := addInList "id" ArgString (Filter.IDs filter) c in
  let c := addInList "pubkey" ArgString (Filter.Authors filter) c in
  let c := addInList "kind" (λ kind, ArgUint16 (uint16 kind))
             (Filter.Kinds filter) c in
  let c := addBound "created_at >= ?" (Filter.Since filter) c in
  let c := addBound "created_at <= ?" (Filter.Until filter) c in
  let c := addRoutedTag "e" filter c in
  let c := addRoutedTag "p" filter c in
  let c := addArrayTag "a" filter c in
  let c := addArrayTag "t" filter c in
  let c := addInList "tag_d" ArgString (tagValues filter "d") c in
  addSearch filter c.

Definition conditions (filter : Filter.t) : list string := (clauses filter).1.
Definition args (filter : Filter.t) : list Arg := (clauses filter).2.

(** Lines 209-212: the local [limit]. *)
Definition limit (filter : Filter.t) : Z :=
  let limit := Filter.Limit filter in
  if (limit =? 0) || (limit >? 5000) then 5000 else limit.

(** The builder's contents after line 204. *)
Definition selectWhere (filter : Filter.t) : string :=
  let b := "" in
  let b := b +:+ "SELECT id, pubkey, created_at, kind, content, sig, " in
  let b := b +:+ "toJSONString(tags) as tags_json FROM " in
  let b := b +:+ table filter in
  let b := b +:+ " FINAL" in
  if nonEmpty (conditions filter)
  then (b +:+ " WHERE ") +:+ Join (conditions filter) " AND "
  else b.

(** The builder's contents at the return. *)
Definition query (filter : Filter.t) : string :=
  let b := selectWhere filter in
  let b := b +:+ " ORDER BY created_at DESC LIMIT " in
  b +:+ formatInt (limit filter).

Definition buildQuery (filter : Filter.t) : string * string * list Arg :=
  (table filter, query filter, args filter).

End Storage.

(** ** [scanEvent] and [queryFilter] *)

(** A Go [error], by its message. *)
Definition error : Type := string.

(** The columns of one result row, as [rows.Scan] stores them. *)
Record Columns : Type := mkColumns {
  col_id : string;
  col_pubkey : string;
  col_created_at : Z;
  col_kind : Z;
  col_content : string;
  col_sig : string;
  col_tags_json : string
}.

(** What [rows.Scan] does on the current row: it fills every destination,
    or it stops with an error and leaves the event as far as it got. *)
Inductive Scanned : Type :=
| ScanOK (c : Columns)
| ScanFailed (event : Event.t) (err : error).

(** What [s.db.QueryContext] yields: an error, or the rows for which
    [rows.Next] holds together with the final [rows.Err]. *)
Inductive Queried : Type :=
| QueryFailed (err : error)
| QueryRows (rows : list Scanned) (rowsErr : option error).

Section Assembler.

(** [json.Unmarshal([]byte(tagsJSON), &event.Tags)] of the standard
    library: [None] when the payload does not parse. *)
Variable Unmarshal : string → option (list (list string)).

Definition scanEvent (row : Scanned) : Event.t * option error :=
  match row with
  | ScanFailed event err => (event, Some err)
  | ScanOK c =>
      let tags :=
        if String.eqb (col_tags_json c) "" then []
        else match Unmarshal (col_tags_json c) with
             | Some tags => tags
             | None => []
             end in
      (Event.mk (col_id c) (col_pubkey c) (col_created_at c) (col_kind c)
         tags (col_content c) (col_sig c),
       None)
  end.

(** The row loop of [queryFilter]: the first row that does not scan ends
    the loop with the wrapped error. *)
Fixpoint scanRows (rows : list Scanned) (events : list Event.t)
    : list Event.t * option error :=
  match rows with
  | [] => (events, None)
  | row :: rest =>
      match scanEvent row with
      | (_, Some err) => ([], Some ("failed to scan event: " +:+ err))
      | (event, None) => scanRows rest (events ++ [event])
      end
  end.

(** The receiver's [s.database] and [s.db.QueryContext]. *)
Variable database : string.
Variable QueryContext : string → list Arg → Queried.

Definition queryFilter (filter : Filter.t) : list Event.t * option error :=
  let '(table, query, args) := buildQuery database filter in
  match QueryContext query args with
  | QueryFailed err =>
      ([], Some ("query failed on table " +:+ table +:+ ": " +:+ err))
  | QueryRows rows rowsErr =>
      match scanRows rows [] with
      | (_, Some err) => ([], Some err)
      | (events, None) =>
          match rowsErr with
          | Some err => ([], Some ("row iteration error: " +:+ err))
          | None => (events, None)
          end
      end
  end.

End Assembler.

(** ** [deduplicateEvents] *)

(** One iteration of the loop over [events]: the pair is [(seen, result)]. *)
Definition dedupStep (acc : gset string * list Event.t) (event : Event.t)
    : gset string * list Event.t :=
  let '(seen, result) := acc in
  if decide (Event.ID event ∈ seen) then (seen, result)
  else ({[Event.ID event]} ∪ seen, result ++ [event]).

Definition deduplicateEvents (events : list Event.t) : list Event.t :=
  if (length events <=? 1)%nat then events
  else (foldl dedupStep (∅, []) events).2.

(** ** The batch-inserter goroutine *)

(** What the worker prints through [log.Printf]. The duration and the rate
    of the success line are wall-clock readings; the line is kept by its
    batch size. *)
Inductive LogLine : Type :=
| LogBatchError (line : string)
| LogInserted (n : nat).

(** The case that a turn of [select] takes. *)
Inductive Selected : Type :=
| StopBatch
| TickerC
| BatchChan (event : Event.t)
| BatchChanClosed.

(** The goroutine's local [buffer], the calls of [s.batchInsert] so far
    (oldest first), the log, and whether the deferred [close(s.batchDone)]
    has run. *)
Record Worker : Type := mkWorker {
  buffer : list Event.t;
  inserts : list (list Event.t);
  logged : list LogLine;
  batchDone : bool
}.

(** How the goroutine fares: a panic before its loop, with the message of
    the panic, or the state that its loop has reached. *)
Inductive Started : Type :=
| Panicked (message : string)
| Ran (w : Worker).

Section BatchInserter.

(** [s.batchSize]. *)
Variable batchSize : Z.

(** [s.batchInsert(context.Background(), buffer)]: the outcome of the write
    is the store's, and may depend on everything written before. *)
Variable batchInsert : list (list Event.t) → list Event.t → option error.

(** The closure [flush]. *)
Definition flush (w : Worker) : Worker :=
  if (length (buffer w) =? 0)%nat then w
  else
    let err := batchInsert (inserts w) (buffer w) in
    let line :=
      match err with
      | Some err => LogBatchError ("batch insert error: " +:+ err)
      | None => LogInserted (length (buffer w))
      end in
    mkWorker [] (inserts w ++ [buffer w]) (logged w ++ [line]) (batchDone w).

(** The deferred [close(s.batchDone)] at a [return]. *)
Definition finish (w : Worker) : Worker :=
  mkWorker (buffer w) (inserts w) (logged w) true.

(** One turn of the [for]/[select] loop. *)
Definition turn (w : Worker) (s : Selected) : Worker :=
  match s with
  | StopBatch => finish (flush w)
  | TickerC => flush w
  | BatchChanClosed => finish (flush w)
  | BatchChan event =>
      let w := mkWorker (buffer w ++ [event]) (inserts w) (logged w)
                 (batchDone w) in
      if Z.of_nat (length (buffer w)) >=? batchSize then flush w else w
  end.

(** The loop over the cases that [select] takes, until a [return]. *)
Fixpoint loop (w : Worker) (schedule : list Selected) : Worker :=
  match schedule with
  | [] => w
  | s :: rest =>
      let w := turn w s in
      if batchDone w then w else loop w rest
  end.

(** [s.flushInterval], a [time.Duration]: its number of nanoseconds. *)
Variable flushInterval : Z.

(** The largest capacity for which [make] of a slice of pointers does not
    panic: the allocation limit of the Go runtime over the size of a
    pointer, a constant of the platform. *)
Variable maxCap : Z.

(** The goroutine from its start. Line 70 allocates the buffer with
    [make([]*nostr.Event, 0, s.batchSize)], which panics when the capacity
    is negative or beyond the limit of the runtime; line 71 creates the
    ticker with [time.NewTicker(s.flushInterval)], which panics when the
    interval is not positive. The loop then starts from an empty buffer. *)
Definition batchInserterOptimized (schedule : list Selected) : Started :=
  if (batchSize <? 0) || (maxCap <? batchSize)
  then Panicked "runtime error: makeslice: cap out of range"
  else if flushInterval <=? 0
  then Panicked "non-positive interval for NewTicker"
  else Ran (loop (mkWorker [] [] [] false) schedule).

(** The events that the loop took from [s.batchChan] before it returned. *)
Fixpoint received (schedule : list Selected) : list Event.t :=
  match schedule with
  | [] => []
  | BatchChan event :: rest => event :: received rest
  | TickerC :: rest => received rest
  | (StopBatch | BatchChanClosed) :: _ => []
  end.

End BatchInserter.

(** ** Vocabulary of the design document *)


(** The tag names that the design document calls recognized. *)
Definition recognizedTagNames : list string :=
  ["e"; "p"; "a"; "t"; "d"; "g"; "r"].

(** The tag names that [buildQuery] reads from the filter. *)
Definition plannedTagNames : list string := ["p"; "e"; "a"; "t"; "d"].

(** The physical tables, by their qualified names. *)
Definition eventsTable (database : string) : string :=
  database +:+ ".events".
Definition authorView (database : string) : string :=
  database +:+ ".events_by_author".
Definition kindView (database : string) : string :=
  database +:+ ".events_by_kind".
Definition tagView (database name : string) : string :=
  database +:+ ".events_by_tag_" +:+ name.

(** The filter constrains two or more tag names. *)
Definition constrainsTwoTagNames (filter : Filter.t) : Prop :=
  ∃ n1 n2 : string,
    n1 ≠ n2 ∧ tagValues filter n1 ≠ [] ∧ tagValues filter n2 ≠ [].

(** ** Sample filters *)

(** [tags={"p":["def"]}] and [tags={"p":["def"],"e":["abc"]}]. *)
Definition filterP : Filter.t :=
  Filter.mk [] [] [] {["p" := ["def"]]} None None 0 "".
Definition filterPE : Filter.t :=
  Filter.mk [] [] [] (<["p" := ["def"]]> {["e" := ["abc"]]}) None None 0 "".

(** The same two tags together with an author, and with everything. *)
Definition filterAuthorPE : Filter.t :=
  Filter.mk [] [] ["alice"] (<["p" := ["def"]]> {["e" := ["abc"]]})
    None None 0 "".
Definition filterAll : Filter.t :=
  Filter.mk ["id1"] [1] ["alice"] (<["p" := ["def"]]> {["e" := ["abc"]]})
    (Some 10) (Some 20) 10 "word".

(** One hashtag, one [d] identifier. *)
Definition filterT : Filter.t :=
  Filter.mk [] [] [] {["t" := ["nostr"]]} None None 0 "".
Definition filterD : Filter.t :=
  Filter.mk [] [] [] {["d" := ["profile"]]} None None 0 "".

(** One geohash. *)
Definition filterG : Filter.t :=
  Filter.mk [] [] [] {["g" := ["u4pruyd"]]} None None 0 "".

(** The number of occurrences of the character [ch] in [s]. *)
Fixpoint countChar (ch : Ascii.ascii) (s : string) : nat :=
  match s with
  | EmptyString => 0
  | String x s' =>
      ((if Ascii.eqb x ch then 1 else 0) + countChar ch s')%nat
  end.

(** The placeholder character of a statement, the question mark (code 63). *)
Definition placeholder : Ascii.ascii := Ascii.ascii_of_nat 63.

(** The columns and predicates of the tag filters. *)
Definition valueColumn (name : string) : string := "tag_" +:+ name +:+ "_value".

(** The placeholders of the conditions are as many as the parameters. *)
Definition balanced (c : Clauses) : Prop :=
  sum_list (countChar placeholder <$> c.1) = length c.2.





(** Filters that differ in their limit only. *)
Definition filterLimit (n : Z) : Filter.t :=
  Filter.mk [] [] [] ∅ None None n "".

(** The first event of a list that has the identity [id]. *)
Definition firstWithID (id : string) (events : list Event.t)
    : option Event.t :=
  List.find (λ event, String.eqb (Event.ID event) id) events.

(** The events whose identity is neither in [seen] nor carried by an
    earlier event of the list. *)
Fixpoint unseen (seen : gset string) (events : list Event.t)
    : list Event.t :=
  match events with
  | [] => []
  | event :: rest =>
      if decide (Event.ID event ∈ seen) then unseen seen rest
      else event :: unseen ({[Event.ID event]} ∪ seen) rest
  end.

(** Sample events: only the identity and the content matter. *)
Definition sampleEvent (id content : string) : Event.t :=
  Event.mk id "" 0 1 [] content "".

(** [rows.Scan] filled every destination. *)
Definition isScanOK (row : Scanned) : bool :=
  match row with
  | ScanOK _ => true
  | ScanFailed _ _ => false
  end.

(** The event that a scanned row yields when its tag payload is dropped. *)
Definition withoutTags (c : Columns) : Event.t :=
  Event.mk (col_id c) (col_pubkey c) (col_created_at c) (col_kind c) []
    (col_content c) (col_sig c).

(** A parser that accepts the empty array and rejects every other payload. *)
Definition sampleUnmarshal (payload : string) : option (list (list string)) :=
  if String.eqb payload "[]" then Some [] else None.

Definition sampleRow (id payload : string) : Scanned :=
  ScanOK (mkColumns id "" 0 1 "" "" payload).

(** A store that answers every query with three rows, the second of which
    carries a payload that is no tag array. *)
Definition sampleQueryContext (query : string) (args : list Arg) : Queried :=
  QueryRows
    [sampleRow "a" "[]"; sampleRow "b" "{corrupt"; sampleRow "c" "[]"]
    None.

(** A flush interval of one second, and the capacity limit of a platform
    with 48 address bits and pointers of eight bytes. *)
Definition sampleInterval : Z := 1000000000.
Definition sampleMaxCap : Z := 2 ^ 45.

(** A store that refuses every write. *)
Definition refusingStore (earlier : list (list Event.t))
    (batch : list Event.t) : option error :=
  Some "connection refused".

(** ** Measures on queries *)

(** What the text of the query can depend on: the lengths of the lists, the
    presence of the bounds and of the search term, and the limit. *)
Record Shape : Type := mkShape {
  shapeIDs : nat;
  shapeAuthors : nat;
  shapeKinds : nat;
  shapeTags : list nat;
  shapeSince : bool;
  shapeUntil : bool;
  shapeSearch : bool;
  shapeLimit : Z
}.

Definition shape (filter : Filter.t) : Shape :=
  mkShape (length (Filter.IDs filter)) (length (Filter.Authors filter))
    (length (Filter.Kinds filter))
    ((λ name, length (tagValues filter name)) <$> plannedTagNames)
    (bool_decide (is_Some (Filter.Since filter)))
    (bool_decide (is_Some (Filter.Until filter)))
    (negb (String.eqb (Filter.Search filter) ""))
    (Filter.Limit filter).

(** The bound parameter is an unsigned integer of its width. *)
Definition argInRange (arg : Arg) : Prop :=
  match arg with
  | ArgUint16 n => 0 ≤ n < 2 ^ 16
  | ArgUint32 n => 0 ≤ n < 2 ^ 32
  | ArgString _ | ArgStrings _ => True
  end.

(** A filter on kinds and bounds only. *)
Definition filterKinds (kinds : list Z) (since until : option Z) : Filter.t :=
  Filter.mk [] kinds [] ∅ since until 0 "".

(** A filter on [p] with a lower bound and a search term. *)
Definition filterPSearch : Filter.t :=
  Filter.mk [] [] [] {["p" := ["def"; "ghi"]]} (Some 100) None 20 "word".

(** The same shape as [filterP], other values. *)
Definition filterP' : Filter.t :=
  Filter.mk [] [] [] {["p" := ["xyz"]]} None None 0 "".

(** A filter on the names [g] and [r], which [buildQuery] does not read. *)
Definition filterGR : Filter.t :=
  Filter.mk [] [] [] (<["g" := ["u4pruyd"]]> {["r" := ["wss://relay"]]})
    None None 0 "".

(** One for a dimension that the filter constrains, zero otherwise. *)
Definition constrained (b : bool) : nat := if b then 1%nat else 0%nat.

(** The number of dimensions that [buildQuery] reads and the filter
    constrains. *)
Definition constrainedDimensions (filter : Filter.t) : nat :=
  (constrained (nonEmpty (Filter.IDs filter)) +
   constrained (nonEmpty (Filter.Authors filter)) +
   constrained (nonEmpty (Filter.Kinds filter)) +
   constrained (bool_decide (is_Some (Filter.Since filter))) +
   constrained (bool_decide (is_Some (Filter.Until filter))) +
   constrained (populated filter "e") +
   constrained (populated filter "p") +
   constrained (populated filter "a") +
   constrained (populated filter "t") +
   constrained (populated filter "d") +
   constrained (negb (String.eqb (Filter.Search filter) "")))%nat.

(** ** [batchInsertOptimized] *)

(** One bound parameter of the insert statement; [InsertColumn] carries a
    value of the tag projections, whose Go types are those of the fields of
    the result of [extractAllTags]. *)
Inductive InsertArg (Column : Type) : Type :=
| InsertString (s : string)
| InsertUint16 (n : Z)
| InsertUint32 (n : Z)
| InsertColumn (v : Column).

Arguments InsertString {Column} s.
Arguments InsertUint16 {Column} n.
Arguments InsertUint32 {Column} n.
Arguments InsertColumn {Column} v.

(** The fields of the result of [extractAllTags] that the insert reads. *)
Record Extracted (Column : Type) : Type := mkExtracted {
  tagsArray : Column;
  tag_e : Column;
  tag_p : Column;
  tag_a : Column;
  tag_t : Column;
  tag_d : Column;
  tag_g : Column;
  tag_r : Column
}.

Arguments mkExtracted {Column}.
Arguments tagsArray {Column} _.
Arguments tag_e {Column} _.
Arguments tag_p {Column} _.
Arguments tag_a {Column} _.
Arguments tag_t {Column} _.
Arguments tag_d {Column} _.
Arguments tag_g {Column} _.
Arguments tag_r {Column} _.

(** What a call has done and returned: whether it reached
    [s.db.PrepareContext], the rows it passed to [stmt.ExecContext] (oldest
    first, the failing one included), and its error. *)
Record Inserted (Column : Type) : Type := mkInserted {
  prepared : bool;
  executed : list (list (InsertArg Column));
  insertErr : option error
}.

Arguments mkInserted {Column}.
Arguments prepared {Column} _.
Arguments executed {Column} _.
Arguments insertErr {Column} _.

(** The text of the prepared statement. *)
Definition insertStatement : string :=
  "
		INSERT INTO nostr.events (
			id, pubkey, created_at, kind, content, sig,
			tags, tag_e, tag_p, tag_a, tag_t, tag_d, tag_g, tag_r,
			relay_received_at, version
		) VALUES (?, ?, ?, ?, ?, ?, ?, ?, ?, ?, ?, ?, ?, ?, ?)
	".

Section BatchInsert.

Variable Column : Type.

(** [extractAllTags] is defined in a file of the package that is not part
    of these sources. *)
Variable extractAllTags : list (list string) → Extracted Column.

(** [s.db.PrepareContext] and [stmt.ExecContext]: the outcome is the
    store's, and that of a row may depend on the rows before it. The
    deferred [stmt.Close] has no result that the function reads. *)
Variable PrepareContext : string → option error.
Variable ExecContext :
  list (list (InsertArg Column)) → list (InsertArg Column) → option error.

(** [time.Now().Unix()] at the call. *)
Variable unixNow : Z.

(** The sixteen arguments of [stmt.ExecContext] for one event. *)
Definition insertRow (event : Event.t) : list (InsertArg Column) :=
  let now := uint32 unixNow in
  let extracted := extractAllTags (Event.Tags event) in
  [InsertString (Event.ID event);
   InsertString (Event.PubKey event);
   InsertUint32 (uint32 (Event.CreatedAt event));
   InsertUint16 (uint16 (Event.Kind event));
   InsertString (Event.Content event);
   InsertString (Event.Sig event);
   InsertColumn (tagsArray extracted);
   InsertColumn (tag_e extracted);
   InsertColumn (tag_p extracted);
   InsertColumn (tag_a extracted);
   InsertColumn (tag_t extracted);
   InsertColumn (tag_d extracted);
   InsertColumn (tag_g extracted);
   InsertColumn (tag_r extracted);
   InsertUint32 now;
   InsertUint32 now].

(** The loop over [events]: the first row that the store refuses ends the
    call with the wrapped error. *)
Fixpoint insertRows (events : list Event.t)
    (earlier : list (list (InsertArg Column)))
    : list (list (InsertArg Column)) * option error :=
  match events with
  | [] => (earlier, None)
  | event :: rest =>
      let row := insertRow event in
      match ExecContext earlier row with
      | Some err =>
          (earlier ++ [row],
           Some ("failed to execute statement for event " +:+ Event.ID event
                 +:+ ": " +:+ err))
      | None => insertRows rest (earlier ++ [row])
      end
  end.

Definition batchInsertOptimized (events : list Event.t) : Inserted Column :=
  if (length events =? 0)%nat then mkInserted false [] None
  else
    match PrepareContext insertStatement with
    | Some err =>
        mkInserted true [] (Some ("failed to prepare statement: " +:+ err))
    | None =>
        let '(rows, err) := insertRows events [] in
        mkInserted true rows err
    end.

End BatchInsert.

(** ** Package [config] *)

Module config.

Record ServerConfig : Type := mkServer {
  Listen : string;
  Domain : string;
  QueueCapacity : Z;
  MaxProcessors : Z;
  ClientResponseLimit : Z
}.

(** A [time.Duration] is its number of nanoseconds. *)
Record ClickHouseConfig : Type := mkClickHouse {
  DSN : string;
  BatchSize : Z;
  FlushInterval : Z;
  MaxOpenConns : Z;
  MaxIdleConns : Z
}.

Record MonitoringConfig : Type := mkMonitoring {
  StatsInterval : Z;
  HealthCheckPort : Z;
  EnableMetrics : bool
}.

Record LimitsConfig : Type := mkLimits {
  MaxEventSize : Z;
  MaxSubscriptions : Z;
  MaxFiltersPerSub : Z;
  ConnectionTimeout : Z
}.

Record Config : Type := mkConfig {
  Server : ServerConfig;
  ClickHouse : ClickHouseConfig;
  Monitoring : MonitoringConfig;
  Limits : LimitsConfig
}.

(** [time.Second]. *)
Definition Second : Z := 1000000000.

Definition Default : Config :=
  mkConfig
    (mkServer "0.0.0.0:3334" "localhost" 2048 8 500)
    (mkClickHouse "clickhouse://localhost:9000/nostr" 1000 (1 * Second) 10 5)
    (mkMonitoring (30 * Second) 8080 true)
    (mkLimits (64 * 1024) 20 10 300).

Section Environment.

(** [os.Getenv]: the empty string for a variable that is not set. *)
Variable Getenv : string → string.

Definition applyEnvOverrides (c : Config) : Config :=
  let c :=
    let listen := Getenv "LISTEN" in
    if negb (String.eqb listen "")
    then mkConfig
           (mkServer listen (Domain (Server c)) (QueueCapacity (Server c))
              (MaxProcessors (Server c)) (ClientResponseLimit (Server c)))
           (ClickHouse c) (Monitoring c) (Limits c)
    else c in
  let c :=
    let domain := Getenv "DOMAIN" in
    if negb (String.eqb domain "")
    then mkConfig
           (mkServer (Listen (Server c)) domain (QueueCapacity (Server c))
              (MaxProcessors (Server c)) (ClientResponseLimit (Server c)))
           (ClickHouse c) (Monitoring c) (Limits c)
    else c in
  let c :=
    let dsn := Getenv "CLICKHOUSE_DSN" in
    if negb (String.eqb dsn "")
    then mkConfig (Server c)
           (mkClickHouse dsn (BatchSize (ClickHouse c))
              (FlushInterval (ClickHouse c)) (MaxOpenConns (ClickHouse c))
              (MaxIdleConns (ClickHouse c)))
           (Monitoring c) (Limits c)
    else c in
  c.

(** [os.Stat] (its error only), [os.ReadFile], and [yaml.Unmarshal], which
    writes into the configuration it is given. *)
Variable Stat : string → option error.
Variable ReadFile : string → string + error.
Variable Unmarshal : string → Config → Config + error.

(** The pointer result is [None] for [nil]. *)
Definition Load : option Config * option error :=
  let cfg := Default in
  let configPath := Getenv "CONFIG_FILE" in
  let configPath :=
    if String.eqb configPath "" then "config.yaml" else configPath in
  let loaded : Config + error :=
    match Stat configPath with
    | None =>
        match ReadFile configPath with
        | inr err => inr ("failed to read config file: " +:+ err)
        | inl data =>
            match Unmarshal data cfg with
            | inr err => inr ("failed to parse config file: " +:+ err)
            | inl cfg => inl cfg
            end
        end
    | Some _ => inl cfg
    end in
  match loaded with
  | inr err => (None, Some err)
  | inl cfg => (Some (applyEnvOverrides cfg), None)
  end.

End Environment.

Definition Validate (c : Config) : option error :=
  if String.eqb (Listen (Server c)) ""
  then Some "server.listen is required"
  else if String.eqb (Domain (Server c)) ""
  then Some "server.domain is required"
  else if String.eqb (DSN (ClickHouse c)) ""
  then Some "clickhouse.dsn is required"
  else if BatchSize (ClickHouse c) <=? 0
  then Some "clickhouse.batch_size must be positive"
  else if FlushInterval (ClickHouse c) <=? 0
  then Some "clickhouse.flush_interval must be positive"
  else if QueueCapacity (Server c) <=? 0
  then Some "server.queue_capacity must be positive"
  else if MaxProcessors (Server c) <=? 0
  then Some "server.max_processors must be positive"
  else None.

(** An environment that sets the listen address and nothing else, and one
    that sets nothing. *)
Definition sampleEnv (name : string) : string :=
  if String.eqb name "LISTEN" then "127.0.0.1:7777" else "".
Definition emptyEnv (name : string) : string := "".

(** A file system without any file, and one whose files cannot be read. *)
Definition noFile (path : string) : option error := Some "no such file".
Definition anyFile (path : string) : option error := None.
Definition unreadable (path : string) : string + error :=
  inr "permission denied".

(** A parser that sets the batch size to 50 and keeps everything else. *)
Definition sampleYaml (data : string) (c : Config) : Config + error :=
  inl (mkConfig (Server c)
         (mkClickHouse (DSN (ClickHouse c)) 50 (FlushInterval (ClickHouse c))
            (MaxOpenConns (ClickHouse c)) (MaxIdleConns (ClickHouse c)))
         (Monitoring c) (Limits c)).

End config.

(** A store whose second row does not scan. *)
Definition failingQueryContext (query : string) (args : list Arg) : Queried :=
  QueryRows
    [sampleRow "a" "[]"; ScanFailed (sampleEvent "" "") "bad column";
     sampleRow "c" "[]"]
    None.

(** The log line of a write matches the write. *)
Definition lineOf (line : LogLine) (batch : list Event.t) : Prop :=
  match line with
  | LogInserted n => n = length batch
  | LogBatchError _ => True
  end.

(** A store that accepts every write. *)
Definition acceptingStore (earlier : list (list Event.t))
    (batch : list Event.t) : option error :=
  None.

(** The start of the goroutine panics: the batch size is negative or beyond
    the capacity limit, or the flush interval is not positive. *)
Definition startPanics (batchSize flushInterval maxCap : Z) : Prop :=
  batchSize < 0 ∨ maxCap < batchSize ∨ flushInterval ≤ 0.

(** The buffer is below the batch size, and no write is larger than it. *)
Definition bounded (batchSize : Z) (w : Worker) : Prop :=
  Z.of_nat (length (buffer w)) < batchSize ∧
  Forall (λ batch, Z.of_nat (length batch) ≤ batchSize) (inserts w).

(** Every write holds exactly the batch size, and the buffer is below it. *)
Definition chunked (batchSize : Z) (w : Worker) : Prop :=
  Z.of_nat (length (buffer w)) < batchSize ∧
  Forall (λ batch, Z.of_nat (length batch) = batchSize) (inserts w).

(** A tag extraction that keeps the tag list for every column, and a store
    that refuses the event with identity [b]. *)
Definition sampleExtract (tags : list (list string))
    : Extracted (list (list string)) :=
  mkExtracted tags tags tags tags tags tags tags tags.
Definition sampleExec (earlier : list (list (InsertArg (list (list string)))))
    (row : list (InsertArg (list (list string)))) : option error :=
  match row with
  | InsertString id :: _ =>
      if String.eqb id "b" then Some "row refused" else None
  | _ => None
  end.
Definition samplePrepare (statement : string) : option error := None.

(** Position [i] of [events] holds the first event with its identity: no
    earlier position holds an event of the same identity. *)
Definition firstOccurrence (events : list Event.t) (i : nat) : Prop :=
  ∃ event : Event.t,
    events !! i = Some event ∧
    ∀ (j : nat) (earlier : Event.t),
      (j < i)%nat → events !! j = Some earlier →
      Event.ID earlier ≠ Event.ID event.

(** [result] holds, in the order of the input, the events of exactly the
    positions of [events] that are first occurrences: [positions] lists
    these positions in increasing order, and [result] is the list of the
    events that stand there. *)
Definition retainsFirstOccurrences (events result : list Event.t)
    (positions : list nat) : Prop :=
  (∀ (a b i j : nat),
     (a < b)%nat → positions !! a = Some i → positions !! b = Some j →
     (i < j)%nat) ∧
  (∀ i : nat, i ∈ positions ↔ firstOccurrence events i) ∧
  Forall2 (λ i event, events !! i = Some event) positions result.

(** * Properties *)

(** ** Strings *)

Lemma append_cons (x : Ascii.ascii) (a b : string) :
  String x a +:+ b = String x (a +:+ b).
Proof. reflexivity. Qed.

Lemma append_assoc (a b c : string) : (a +:+ b) +:+ c = a +:+ b +:+ c.
Proof. induction a as [|x a IH]; [done |]. rewrite !append_cons. by f_equal. Qed.


Lemma append_cancel_l (d a b : string) : d +:+ a = d +:+ b → a = b.
Proof.
  induction d as [|x d IH]; [done |]. rewrite !append_cons.
  intros [= H]. auto.
Qed.




Lemma Join_cons (x : string) (l : list string) (sep : string) :
  l ≠ [] → Join (x :: l) sep = x +:+ sep +:+ Join l sep.
Proof. by destruct l. Qed.





(** ** Routing *)

Section Routing.

Variable database : string.
Implicit Types (filter : Filter.t) (name : string).

Lemma nonEmpty_true {A : Type} (xs : list A) : nonEmpty xs = true ↔ xs ≠ [].
Proof. by destruct xs. Qed.

Lemma nonEmpty_false {A : Type} (xs : list A) : nonEmpty xs = false ↔ xs = [].
Proof. by destruct xs. Qed.

Lemma populated_true filter name :
  populated filter name = true ↔ tagValues filter name ≠ [].
Proof. apply nonEmpty_true. Qed.

Lemma populated_false filter name :
  populated filter name = false ↔ tagValues filter name = [].
Proof. apply nonEmpty_false. Qed.

Lemma tableName_inj (a b : string) :
  tableName database a = tableName database b → a = b.
Proof.
  unfold tableName. intros H%append_cancel_l. by injection H.
Qed.

(** The switch, read as the priority order of its cases. *)
Lemma table_ids filter :
  Filter.IDs filter ≠ [] → table database filter = tableName database "events".
Proof. intros H%nonEmpty_true. unfold table. by rewrite H. Qed.

Lemma table_authors filter :
  Filter.IDs filter = [] → Filter.Authors filter ≠ [] →
  table database filter = tableName database "events_by_author".
Proof.
  intros H1%nonEmpty_false H2%nonEmpty_true. unfold table. by rewrite H1, H2.
Qed.

Lemma table_kinds filter :
  Filter.IDs filter = [] → Filter.Authors filter = [] →
  Filter.Kinds filter ≠ [] →
  table database filter = tableName database "events_by_kind".
Proof.
  intros H1%nonEmpty_false H2%nonEmpty_false H3%nonEmpty_true.
  unfold table. by rewrite H1, H2, H3.
Qed.

Lemma table_tags filter :
  Filter.IDs filter = [] → Filter.Authors filter = [] →
  Filter.Kinds filter = [] →
  table database filter =
    if (tagTypeCount filter =? 1) && populated filter "p"
    then tableName database "events_by_tag_p"
    else if (tagTypeCount filter =? 1) && populated filter "e"
    then tableName database "events_by_tag_e"
    else tableName database "events".
Proof.
  intros H1%nonEmpty_false H2%nonEmpty_false H3%nonEmpty_false.
  unfold table. by rewrite H1, H2, H3.
Qed.

(** A tag view is chosen only when the counter is exactly one. *)
Lemma table_tag_view filter name :
  table database filter = tableName database ("events_by_tag_" +:+ name) →
  tagTypeCount filter = 1 ∧ populated filter name = true ∧
  (name = "p" ∨ name = "e").
Proof.
  unfold table.
  repeat match goal with
  | |- context [if ?b then _ else _] => destruct b eqn:?
  end; intros H%tableName_inj; cbv in H; simplify_eq;
  match goal with
  | H : _ && _ = true |- _ => apply andb_true_iff in H as [?%Z.eqb_eq ?]
  end; auto.
Qed.

End Routing.

(** ** Routing claims *)

Lemma eventsTable_eq (database : string) :
  tableName database "events" = eventsTable database.
Proof. reflexivity. Qed.

Lemma tagView_eq (database name : string) :
  tableName database ("events_by_tag_" +:+ name) = tagView database name.
Proof. reflexivity. Qed.

(** C8. A filter with a non-empty id list is routed to the base events
    table, whatever its author list, kind list and tag map hold: the id
    case is the first of the switch. *)
Theorem ids_route_to_base (database : string) (filter : Filter.t) :
  Filter.IDs filter ≠ [] →
  (buildQuery database filter).1.1 = eventsTable database.
Proof. intros H. simpl. by rewrite table_ids. Qed.

Lemma ids_route_to_base_witness :
  Filter.IDs filterAll ≠ [] ∧ Filter.Authors filterAll ≠ [] ∧
  Filter.Kinds filterAll ≠ [] ∧
  (buildQuery "nostr" filterAll).1.1 = "nostr.events".
Proof.
  split; [done |]. split; [done |]. split; [done |].
  apply (ids_route_to_base "nostr" filterAll). done.
Defined.

(** Two populated names among those that the planner reads make the counter
    differ from one. *)
Lemma tagTypeCount_two (filter : Filter.t) (n1 n2 : string) :
  n1 ∈ plannedTagNames → n2 ∈ plannedTagNames → n1 ≠ n2 →
  tagValues filter n1 ≠ [] → tagValues filter n2 ≠ [] →
  2 ≤ tagTypeCount filter.
Proof.
  unfold plannedTagNames. rewrite !elem_of_cons, !elem_of_nil.
  intros H1 H2 Hne P1%populated_true P2%populated_true.
  unfold tagTypeCount.
  destruct H1 as [->|[->|[->|[->|[->|[]]]]]];
  destruct H2 as [->|[->|[->|[->|[->|[]]]]]]; try done;
  rewrite ?P1, ?P2; repeat case_match; lia.
Qed.

(** One populated name among those that the planner reads, and only that
    one, makes the counter one. *)
Lemma tagTypeCount_one (filter : Filter.t) (name : string) :
  name ∈ plannedTagNames → tagValues filter name ≠ [] →
  (∀ other, other ∈ plannedTagNames → other ≠ name →
     tagValues filter other = []) →
  tagTypeCount filter = 1.
Proof.
  intros H P%populated_true Hothers.
  assert (∀ other, other ∈ plannedTagNames → other ≠ name →
            populated filter other = false) as Q.
  { intros other ? ?. by apply populated_false, Hothers. }
  unfold plannedTagNames in *. rewrite !elem_of_cons, !elem_of_nil in H.
  unfold tagTypeCount.
  destruct H as [->|[->|[->|[->|[->|[]]]]]];
    rewrite P, ?(Q "p"), ?(Q "e"), ?(Q "a"), ?(Q "t"), ?(Q "d");
    try done; set_solver.
Qed.

(** The claim of C1 as the design document words it fails on the code: with
    an author list, a filter on both [p] and [e] goes to the author view. *)
Lemma two_tags_author_counterexample :
  constrainsTwoTagNames filterAuthorPE ∧
  (buildQuery "nostr" filterAuthorPE).1.1 = "nostr.events_by_author" ∧
  (buildQuery "nostr" filterAuthorPE).1.1 ≠ eventsTable "nostr".
Proof.
  split; [| split; [reflexivity | by vm_compute]].
  exists "p", "e". split; [done |]. split; by vm_compute.
Qed.

(** C1, amended. A filter that populates two or more of the tag names [p],
    [e], [a], [t], [d] is never routed to a tag view. It is routed by the
    earlier cases of the switch alone: to the base events table when the id
    list is non-empty or when the author and kind lists are both empty, to
    the author view when only the id list is empty, and to the kind view
    when the id and author lists are empty and the kind list is not. *)
Theorem two_planned_tags_routing (database : string) (filter : Filter.t)
    (n1 n2 : string) :
  n1 ∈ plannedTagNames → n2 ∈ plannedTagNames → n1 ≠ n2 →
  tagValues filter n1 ≠ [] → tagValues filter n2 ≠ [] →
  (∀ name, (buildQuery database filter).1.1 ≠ tagView database name) ∧
  (Filter.IDs filter ≠ [] ∨
   (Filter.Authors filter = [] ∧ Filter.Kinds filter = []) →
   (buildQuery database filter).1.1 = eventsTable database) ∧
  (Filter.IDs filter = [] → Filter.Authors filter ≠ [] →
   (buildQuery database filter).1.1 = authorView database) ∧
  (Filter.IDs filter = [] → Filter.Authors filter = [] →
   Filter.Kinds filter ≠ [] →
   (buildQuery database filter).1.1 = kindView database).
Proof.
  intros H1 H2 Hne P1 P2.
  pose proof (tagTypeCount_two filter n1 n2 H1 H2 Hne P1 P2) as Hcount.
  cbn [fst buildQuery]. repeat split.
  - intros name Hview. rewrite <- tagView_eq in Hview.
    apply table_tag_view in Hview as [? _]. lia.
  - intros [Hids | [Hauthors Hkinds]]; [by apply table_ids |].
    destruct (decide (Filter.IDs filter = [])) as [Hids | Hids];
      [| by apply table_ids].
    rewrite table_tags by done.
    assert ((tagTypeCount filter =? 1) = false) as -> by lia.
    reflexivity.
  - apply table_authors.
  - apply table_kinds.
Qed.

Lemma two_planned_tags_routing_witness :
  (buildQuery "nostr" filterPE).1.1 = "nostr.events" ∧
  (buildQuery "nostr" filterAuthorPE).1.1 = "nostr.events_by_author".
Proof.
  split.
  - apply (two_planned_tags_routing "nostr" filterPE "p" "e");
      [set_solver | set_solver | done | by vm_compute | by vm_compute |].
    right. done.
  - apply (two_planned_tags_routing "nostr" filterAuthorPE "p" "e");
      [set_solver | set_solver | done | by vm_compute | by vm_compute | |];
      done.
Defined.

(** The claim of C2 as the design document words it fails on the code: a
    filter on the recognized name [t] alone goes to the base events table,
    and no view is specialized for [t]. *)
Lemma single_tag_t_counterexample :
  "t" ∈ recognizedTagNames ∧
  Filter.IDs filterT = [] ∧ Filter.Authors filterT = [] ∧
  Filter.Kinds filterT = [] ∧
  tagValues filterT "t" ≠ [] ∧
  (∀ other, other ≠ "t" → tagValues filterT other = []) ∧
  (buildQuery "nostr" filterT).1.1 = "nostr.events" ∧
  (buildQuery "nostr" filterT).1.1 ≠ tagView "nostr" "t".
Proof.
  split; [set_solver |]. do 3 (split; [done |]).
  split; [by vm_compute |]. split; [| split; [reflexivity | by vm_compute]].
  intros other Hne. unfold tagValues, filterT. cbn [Filter.Tags].
  by rewrite lookup_singleton_ne.
Qed.

(** A filter that populates no name that the planner reads has a counter
    of zero. *)
Lemma tagTypeCount_zero (filter : Filter.t) :
  (∀ name, name ∈ plannedTagNames → tagValues filter name = []) →
  tagTypeCount filter = 0.
Proof.
  intros Hnone.
  assert (∀ name, name ∈ plannedTagNames → populated filter name = false)
    as Q.
  { intros name ?. by apply populated_false, Hnone. }
  unfold tagTypeCount.
  by rewrite (Q "p"), (Q "e"), (Q "a"), (Q "t"), (Q "d") by set_solver.
Qed.

(** C2, amended. A filter with empty id, author and kind lists whose tag
    map populates exactly one tag name, that name being one of [e], [p],
    [a], [t], [d], [g], [r], is routed to the view of that name when the
    name is [p] or [e], and to the base events table when it is [a], [t],
    [d], [g] or [r], for which there is no view. *)
Theorem single_tag_routing (database : string) (filter : Filter.t)
    (name : string) :
  Filter.IDs filter = [] → Filter.Authors filter = [] →
  Filter.Kinds filter = [] →
  name ∈ recognizedTagNames → tagValues filter name ≠ [] →
  (∀ other, other ≠ name → tagValues filter other = []) →
  (buildQuery database filter).1.1 =
    if decide (name = "p" ∨ name = "e") then tagView database name
    else eventsTable database.
Proof.
  intros Hids Hauthors Hkinds Hname P Hothers.
  cbn [fst buildQuery]. rewrite table_tags by done.
  assert (∀ other, other ≠ name → populated filter other = false) as Q.
  { intros other ?. by apply populated_false, Hothers. }
  destruct (decide (name ∈ plannedTagNames)) as [Hplanned | Hplanned].
  - rewrite (tagTypeCount_one filter name Hplanned P) by auto.
    apply populated_true in P.
    unfold plannedTagNames in Hplanned.
    rewrite !elem_of_cons, !elem_of_nil in Hplanned.
    destruct Hplanned as [->|[->|[->|[->|[->|[]]]]]];
      rewrite ?P, ?(Q "p"), ?(Q "e") by done; reflexivity.
  - rewrite tagTypeCount_zero.
    + unfold recognizedTagNames in Hname. unfold plannedTagNames in Hplanned.
      rewrite !elem_of_cons, elem_of_nil in Hname.
      rewrite !elem_of_cons, elem_of_nil in Hplanned.
      destruct Hname as [->|[->|[->|[->|[->|[->|[->|[]]]]]]]];
        try tauto; reflexivity.
    + intros other Hother. apply Hothers. by intros ->.
Qed.

Lemma single_tag_routing_witness :
  (buildQuery "nostr" filterP).1.1 = "nostr.events_by_tag_p" ∧
  (buildQuery "nostr" filterD).1.1 = "nostr.events" ∧
  (buildQuery "nostr" filterG).1.1 = "nostr.events".
Proof.
  split; [| split].
  - apply (single_tag_routing "nostr" filterP "p");
      [done | done | done | set_solver | by vm_compute |].
    intros other Hne. unfold tagValues, filterP. cbn [Filter.Tags].
    by rewrite lookup_singleton_ne.
  - apply (single_tag_routing "nostr" filterD "d");
      [done | done | done | set_solver | by vm_compute |].
    intros other Hne. unfold tagValues, filterD. cbn [Filter.Tags].
    by rewrite lookup_singleton_ne.
  - apply (single_tag_routing "nostr" filterG "g");
      [done | done | done | set_solver | by vm_compute |].
    intros other Hne. unfold tagValues, filterG. cbn [Filter.Tags].
    by rewrite lookup_singleton_ne.
Defined.

(** ** Conditions and bound parameters *)

Section Conditions.

Variable database : string.
Implicit Types (filter : Filter.t) (c : Clauses) (name column : string).


End Conditions.

(** ** Tag predicates *)


(** ** The row cap *)

Lemma formatInt_negative (n : Z) :
  n < 0 → formatInt n = "-" +:+ formatInt (- n).
Proof. destruct n as [|p|p]; [lia | lia | reflexivity]. Qed.

Lemma query_limit (database : string) (filter : Filter.t) :
  (buildQuery database filter).1.2 =
    (selectWhere database filter +:+ " ORDER BY created_at DESC LIMIT ")
      +:+ formatInt (limit filter).
Proof. reflexivity. Qed.

(** C4. A limit of zero or above 5000 gives the effective limit 5000, which
    is what the [LIMIT] clause of the built query then reads; a limit from 1
    to 5000 is used unchanged. *)
Theorem limit_clamped (database : string) (filter : Filter.t) :
  (Filter.Limit filter = 0 ∨ 5000 < Filter.Limit filter →
   limit filter = 5000 ∧
   (buildQuery database filter).1.2 =
     (selectWhere database filter +:+ " ORDER BY created_at DESC LIMIT ")
       +:+ "5000") ∧
  (0 < Filter.Limit filter ≤ 5000 →
   limit filter = Filter.Limit filter ∧
   (buildQuery database filter).1.2 =
     (selectWhere database filter +:+ " ORDER BY created_at DESC LIMIT ")
       +:+ formatInt (Filter.Limit filter)).
Proof.
  rewrite query_limit. unfold limit. split; intros H.
  - assert ((Filter.Limit filter =? 0) || (Filter.Limit filter >? 5000) = true)
      as -> by lia.
    done.
  - assert ((Filter.Limit filter =? 0) || (Filter.Limit filter >? 5000) = false)
      as -> by lia.
    done.
Qed.

Lemma limit_clamped_witness :
  limit (filterLimit 0) = 5000 ∧
  limit (filterLimit 50000) = 5000 ∧
  limit (filterLimit 10) = 10 ∧
  (buildQuery "nostr" (filterLimit 10)).1.2 =
    "SELECT id, pubkey, created_at, kind, content, sig, toJSONString(tags) as tags_json FROM nostr.events FINAL WHERE deleted = 0 ORDER BY created_at DESC LIMIT 10".
Proof.
  split; [| split; [| split]].
  - apply (proj1 (limit_clamped "nostr" (filterLimit 0))). by left.
  - apply (proj1 (limit_clamped "nostr" (filterLimit 50000))). right.
    cbn. lia.
  - apply (proj2 (limit_clamped "nostr" (filterLimit 10))). cbn. lia.
  - rewrite (proj2 (proj2 (limit_clamped "nostr" (filterLimit 10))
                      ltac:(cbn; lia))).
    reflexivity.
Defined.

(** C10. A negative limit is not clamped: the effective limit is the
    filter's own, and the [LIMIT] clause reads a minus sign followed by the
    digits of its magnitude. The effective limit differs from the filter's
    exactly when the filter's is zero or above 5000. *)
Theorem negative_limit_verbatim (database : string) (filter : Filter.t) :
  (Filter.Limit filter < 0 →
   limit filter = Filter.Limit filter ∧
   (buildQuery database filter).1.2 =
     (selectWhere database filter +:+ " ORDER BY created_at DESC LIMIT ")
       +:+ "-" +:+ formatInt (- Filter.Limit filter)) ∧
  (limit filter ≠ Filter.Limit filter ↔
   Filter.Limit filter = 0 ∨ 5000 < Filter.Limit filter).
Proof.
  split.
  - intros H. rewrite query_limit. unfold limit.
    assert ((Filter.Limit filter =? 0) || (Filter.Limit filter >? 5000) = false)
      as -> by lia.
    by rewrite formatInt_negative.
  - unfold limit.
    destruct ((Filter.Limit filter =? 0) || (Filter.Limit filter >? 5000))
      eqn:E; lia.
Qed.

Lemma negative_limit_verbatim_witness :
  Filter.Limit (filterLimit (-3)) < 0 ∧
  limit (filterLimit (-3)) = -3 ∧
  (buildQuery "nostr" (filterLimit (-3))).1.2 =
    "SELECT id, pubkey, created_at, kind, content, sig, toJSONString(tags) as tags_json FROM nostr.events FINAL WHERE deleted = 0 ORDER BY created_at DESC LIMIT -3".
Proof.
  assert (Filter.Limit (filterLimit (-3)) < 0) as H by (cbn; lia).
  split; [exact H |]. split.
  - apply (proj1 (negative_limit_verbatim "nostr" (filterLimit (-3)))), H.
  - rewrite (proj2 (proj1 (negative_limit_verbatim "nostr" (filterLimit (-3)))
                      H)).
    reflexivity.
Defined.

(** ** Deduplication *)

Section Deduplication.

Implicit Types (events result : list Event.t) (seen : gset string).

(** The loop, from any state, appends the unseen events in order. *)
Lemma foldl_dedupStep events seen result :
  (foldl dedupStep (seen, result) events).2 = result ++ unseen seen events.
Proof.
  revert seen result.
  induction events as [|event events IH]; intros seen result; simpl.
  - by rewrite app_nil_r.
  - destruct (decide (Event.ID event ∈ seen)); rewrite IH; [done |].
    by rewrite <- app_assoc.
Qed.

(** The early return for short lists agrees with the loop. *)
Lemma deduplicateEvents_unseen events :
  deduplicateEvents events = unseen ∅ events.
Proof.
  unfold deduplicateEvents.
  destruct events as [|e1 [|e2 events]]; [done | | ].
  - simpl. by rewrite decide_False by apply not_elem_of_empty.
  - assert ((length (e1 :: e2 :: events) <=? 1)%nat = false) as -> by done.
    by rewrite foldl_dedupStep.
Qed.

Lemma unseen_sublist seen events : sublist (unseen seen events) events.
Proof.
  revert seen. induction events as [|event events IH]; intros seen; simpl.
  - constructor.
  - destruct (decide _); [apply sublist_cons | apply sublist_skip]; apply IH.
Qed.

Lemma unseen_cons seen event events :
  unseen seen (event :: events) =
    if decide (Event.ID event ∈ seen) then unseen seen events
    else event :: unseen ({[Event.ID event]} ∪ seen) events.
Proof. reflexivity. Qed.

Lemma firstWithID_cons (id : string) event events :
  firstWithID id (event :: events) =
    if String.eqb (Event.ID event) id then Some event
    else firstWithID id events.
Proof. reflexivity. Qed.

Lemma not_elem_of_insert (id id' : string) seen :
  id ∉ {[id']} ∪ seen → id ≠ id' ∧ id ∉ seen.
Proof.
  intros H. split.
  - intros ->. apply H, elem_of_union_l. by apply elem_of_singleton.
  - intros Hin. by apply H, elem_of_union_r.
Qed.

Lemma unseen_fresh seen events event :
  event ∈ unseen seen events → Event.ID event ∉ seen.
Proof.
  revert seen. induction events as [|x events IH]; intros seen.
  - by intros ?%elem_of_nil.
  - rewrite unseen_cons.
    destruct (decide (Event.ID x ∈ seen)) as [Hin | Hout]; [apply IH |].
    intros [-> | Hrest]%elem_of_cons; [done |].
    by apply IH, not_elem_of_insert in Hrest as [_ ?].
Qed.

Lemma unseen_NoDup seen events : NoDup (Event.ID <$> unseen seen events).
Proof.
  revert seen. induction events as [|x events IH]; intros seen.
  - constructor.
  - rewrite unseen_cons.
    destruct (decide (Event.ID x ∈ seen)); [apply IH |].
    rewrite fmap_cons. constructor; [| apply IH].
    intros (y & Hid & Hy)%list_elem_of_fmap.
    apply unseen_fresh, not_elem_of_insert in Hy as [Hy _]. congruence.
Qed.

Lemma unseen_complete seen events event :
  event ∈ events → Event.ID event ∉ seen →
  Event.ID event ∈ Event.ID <$> unseen seen events.
Proof.
  revert seen. induction events as [|x events IH]; intros seen.
  - by intros ?%elem_of_nil.
  - rewrite unseen_cons. intros [Heq | Hrest]%elem_of_cons Hout.
    + subst x. rewrite decide_False by done.
      rewrite fmap_cons. apply elem_of_cons. by left.
    + destruct (decide (Event.ID x ∈ seen)); [by apply IH |].
      rewrite fmap_cons. apply elem_of_cons.
      destruct (decide (Event.ID event = Event.ID x)) as [| Hne];
        [by left | right].
      apply IH; [done |].
      intros [Hx%elem_of_singleton | Hseen]%elem_of_union; done.
Qed.

Lemma unseen_first seen events event :
  event ∈ unseen seen events →
  firstWithID (Event.ID event) events = Some event.
Proof.
  revert seen. induction events as [|x events IH]; intros seen.
  - by intros ?%elem_of_nil.
  - rewrite unseen_cons, firstWithID_cons.
    destruct (decide (Event.ID x ∈ seen)) as [Hin | Hout].
    + intros Hrest. pose proof (unseen_fresh _ _ _ Hrest) as Hfresh.
      assert (String.eqb (Event.ID x) (Event.ID event) = false) as ->.
      { apply String.eqb_neq. intros Heq. apply Hfresh. by rewrite <- Heq. }
      by apply (IH seen).
    + intros [Heq | Hrest]%elem_of_cons.
      * subst x. by rewrite String.eqb_refl.
      * pose proof (unseen_fresh _ _ _ Hrest) as [Hne _]%not_elem_of_insert.
        assert (String.eqb (Event.ID x) (Event.ID event) = false) as ->.
        { by apply String.eqb_neq. }
        by apply (IH ({[Event.ID x]} ∪ seen)).
Qed.

End Deduplication.

(** ** Result assembly *)

Section Assembly.

Variable Unmarshal : string → option (list (list string)).
Implicit Types (rows : list Scanned) (events : list Event.t) (c : Columns).

(** A row whose payload does not parse yields its event without tags, and
    no error. *)
Lemma scanEvent_unparsed c :
  Unmarshal (col_tags_json c) = None →
  scanEvent Unmarshal (ScanOK c) = (withoutTags c, None).
Proof.
  intros Hfail. unfold scanEvent. rewrite Hfail.
  by destruct (String.eqb _ _).
Qed.

(** A row that scans never yields an error, whatever its payload. *)
Lemma scanEvent_ok (row : Scanned) :
  isScanOK row = true → (scanEvent Unmarshal row).2 = None.
Proof. by destruct row. Qed.

(** Over rows that all scan, the loop returns one event per row. *)
Lemma scanRows_ok rows events :
  forallb isScanOK rows = true →
  scanRows Unmarshal rows events =
    (events ++ ((λ row, (scanEvent Unmarshal row).1) <$> rows), None).
Proof.
  revert events. induction rows as [|row rows IH]; intros events Hok.
  - by rewrite app_nil_r.
  - apply andb_true_iff in Hok as [Hrow Hrows].
    cbn [scanRows]. pose proof (scanEvent_ok row Hrow) as Herr.
    destruct (scanEvent Unmarshal row) as [event err] eqn:E.
    cbn [snd] in Herr. subst err. rewrite IH by done.
    rewrite fmap_cons, E. cbn [fst]. by rewrite <- app_assoc.
Qed.

End Assembly.

(** C6. A row that scans but whose tag payload does not parse gives, from
    [scanEvent], its event with empty tags and no error. When it stands
    among rows that all scan and the row iteration ends without error,
    [queryFilter] returns no error and one event per row, and the event at
    the position of that row is the one with empty tags. *)
Theorem unparsed_tags_isolated
    (Unmarshal : string → option (list (list string)))
    (database : string) (QueryContext : string → list Arg → Queried)
    (filter : Filter.t) (before after : list Scanned) (c : Columns) :
  Unmarshal (col_tags_json c) = None →
  forallb isScanOK before = true → forallb isScanOK after = true →
  QueryContext (query database filter) (args database filter) =
    QueryRows (before ++ ScanOK c :: after) None →
  scanEvent Unmarshal (ScanOK c) = (withoutTags c, None) ∧
  ∃ events,
    queryFilter Unmarshal database QueryContext filter = (events, None) ∧
    length events = length (before ++ ScanOK c :: after) ∧
    events !! length before = Some (withoutTags c).
Proof.
  intros Hfail Hbefore Hafter Hquery.
  pose proof (scanEvent_unparsed Unmarshal c Hfail) as Hscan.
  split; [done |].
  unfold queryFilter, buildQuery. rewrite Hquery.
  rewrite scanRows_ok; last first.
  { rewrite forallb_app. cbn [forallb isScanOK]. by rewrite Hbefore, Hafter. }
  eexists. split; [reflexivity |]. cbn [app]. split.
  - by rewrite length_fmap.
  - rewrite fmap_app, fmap_cons, Hscan. cbn [fst].
    rewrite lookup_app_r by (by rewrite length_fmap).
    by rewrite length_fmap, Nat.sub_diag.
Qed.

Lemma unparsed_tags_isolated_witness :
  queryFilter sampleUnmarshal "nostr" sampleQueryContext Filter.zero =
    ([sampleEvent "a" ""; sampleEvent "b" ""; sampleEvent "c" ""], None) ∧
  scanEvent sampleUnmarshal (sampleRow "b" "{corrupt") =
    (sampleEvent "b" "", None).
Proof.
  split; [reflexivity |].
  apply (unparsed_tags_isolated sampleUnmarshal "nostr" sampleQueryContext
           Filter.zero [sampleRow "a" "[]"] [sampleRow "c" "[]"]
           (mkColumns "b" "" 0 1 "" "" "{corrupt"));
    reflexivity.
Defined.

(** ** The batch inserter *)

Section Flush.

Variable batchSize : Z.
Variable batchInsert : list (list Event.t) → list Event.t → option error.
Implicit Types (w : Worker) (schedule : list Selected).

Local Abbreviation flushW := (flush batchInsert).
Local Abbreviation turnW := (turn batchSize batchInsert).
Local Abbreviation loopW := (loop batchSize batchInsert).

Lemma flush_empty w : buffer w = [] → flushW w = w.
Proof. intros H. unfold flush. by rewrite H. Qed.

Lemma flush_nonempty w :
  buffer w ≠ [] →
  flushW w =
    mkWorker [] (inserts w ++ [buffer w])
      (logged w ++
         [match batchInsert (inserts w) (buffer w) with
          | Some err => LogBatchError ("batch insert error: " +:+ err)
          | None => LogInserted (length (buffer w))
          end])
      (batchDone w).
Proof.
  intros H. unfold flush. by destruct (buffer w).
Qed.

Lemma flush_buffer w : buffer (flushW w) = [].
Proof.
  destruct (buffer w) eqn:E.
  - by rewrite flush_empty.
  - rewrite flush_nonempty; [done | by rewrite E].
Qed.

Lemma flush_batchDone w : batchDone (flushW w) = batchDone w.
Proof.
  destruct (buffer w) eqn:E.
  - by rewrite flush_empty.
  - rewrite flush_nonempty; [done | by rewrite E].
Qed.

(** A flush moves the buffered events into the writes, and moves nothing
    else. *)
Lemma flush_total w :
  concat (inserts (flushW w)) ++ buffer (flushW w) =
    concat (inserts w) ++ buffer w.
Proof.
  destruct (buffer w) eqn:E.
  - by rewrite flush_empty, E.
  - rewrite flush_nonempty by (by rewrite E). cbn [inserts buffer].
    rewrite concat_app, E. cbn [concat]. by rewrite !app_nil_r.
Qed.

(** No write is empty. *)
Lemma flush_writes_nonempty w :
  Forall (λ batch, batch ≠ []) (inserts w) →
  Forall (λ batch, batch ≠ []) (inserts (flushW w)).
Proof.
  intros H. destruct (buffer w) eqn:E.
  - by rewrite flush_empty.
  - rewrite flush_nonempty by (by rewrite E). cbn [inserts].
    apply Forall_app. split; [done |]. constructor; [by rewrite E | constructor].
Qed.

(** The received events are, in order, the written ones followed by the
    buffered ones. *)
Lemma loop_total w schedule :
  batchDone w = false →
  concat (inserts (loopW w schedule)) ++ buffer (loopW w schedule) =
    (concat (inserts w) ++ buffer w) ++ received schedule.
Proof.
  revert w. induction schedule as [|s schedule IH]; intros w Hrun.
  - cbn [loop received]. by rewrite app_nil_r.
  - cbn [loop]. destruct s as [| |event|]; cbn [turn received].
    + cbn [finish batchDone inserts buffer]. by rewrite flush_total, app_nil_r.
    + rewrite flush_batchDone, Hrun, IH by (by rewrite flush_batchDone).
      by rewrite flush_total.
    + cbn [buffer].
      destruct (Z.of_nat (length (buffer w ++ [event])) >=? batchSize).
      * rewrite flush_batchDone. cbn [batchDone]. rewrite Hrun.
        rewrite IH by (by rewrite flush_batchDone).
        rewrite flush_total. cbn [inserts buffer].
        by rewrite <- !app_assoc.
      * cbn [batchDone]. rewrite Hrun, IH by done. cbn [inserts buffer].
        by rewrite <- !app_assoc.
    + cbn [finish batchDone inserts buffer]. by rewrite flush_total, app_nil_r.
Qed.

Lemma loop_writes_nonempty w schedule :
  Forall (λ batch, batch ≠ []) (inserts w) →
  Forall (λ batch, batch ≠ []) (inserts (loopW w schedule)).
Proof.
  revert w. induction schedule as [|s schedule IH]; intros w H; [done |].
  cbn [loop].
  assert (Forall (λ batch, batch ≠ []) (inserts (turnW w s))) as Hturn.
  { destruct s as [| |event|]; cbn [turn finish inserts];
      try by apply flush_writes_nonempty.
    destruct (_ >=? _); [by apply flush_writes_nonempty | done]. }
  destruct (batchDone (turnW w s)); [done | by apply IH].
Qed.

(** When the goroutine has returned, nothing is left in the buffer. *)
Lemma loop_done w schedule :
  batchDone w = false → batchDone (loopW w schedule) = true →
  buffer (loopW w schedule) = [].
Proof.
  revert w. induction schedule as [|s schedule IH]; intros w Hrun Hdone.
  - cbn [loop] in Hdone. congruence.
  - cbn [loop] in *.
    destruct (batchDone (turnW w s)) eqn:E; [| by apply IH].
    destruct s as [| |event|]; cbn [turn] in *.
    + cbn [finish buffer]. apply flush_buffer.
    + rewrite flush_batchDone in E. congruence.
    + destruct (_ >=? _).
      * rewrite flush_batchDone in E. cbn [batchDone] in E. congruence.
      * cbn [batchDone] in E. congruence.
    + cbn [finish buffer]. apply flush_buffer.
Qed.

(** The start of the goroutine, by cases. *)
Lemma batchInserterOptimized_ran (flushInterval maxCap : Z) schedule :
  0 ≤ batchSize → batchSize ≤ maxCap → 0 < flushInterval →
  batchInserterOptimized batchSize batchInsert flushInterval maxCap schedule =
    Ran (loopW (mkWorker [] [] [] false) schedule).
Proof.
  intros H1 H2 H3. unfold batchInserterOptimized.
  assert ((batchSize <? 0) || (maxCap <? batchSize) = false) as -> by lia.
  by assert ((flushInterval <=? 0) = false) as -> by lia.
Qed.

Lemma batchInserterOptimized_cases (flushInterval maxCap : Z) schedule :
  (∃ message,
     batchInserterOptimized batchSize batchInsert flushInterval maxCap
       schedule = Panicked message ∧
     startPanics batchSize flushInterval maxCap) ∨
  batchInserterOptimized batchSize batchInsert flushInterval maxCap schedule =
    Ran (loopW (mkWorker [] [] [] false) schedule).
Proof.
  unfold batchInserterOptimized, startPanics.
  destruct ((batchSize <? 0) || (maxCap <? batchSize)) eqn:E1;
    [left; eexists; split; [done | lia] |].
  destruct (flushInterval <=? 0) eqn:E2;
    [left; eexists; split; [done | lia] |].
  by right.
Qed.

End Flush.

(** C7. Every flush leaves the buffer empty. A flush of a non-empty buffer
    is one call of [batchInsert] with the whole buffer, and one log line:
    the error when the write failed, the batch size when it succeeded; in
    both cases the events are gone from the buffer. The stop signal, the
    ticker, the closed channel and a buffer that reaches the batch size each
    run that flush. Over any run of the goroutine the writes, in order and
    followed by the buffer, are exactly the events received: no event is
    written twice, whatever the outcome of its write, and after the return
    nothing is buffered. The goroutine reaches its loop unless its start
    panics, which it does only for a batch size that is negative or beyond
    the capacity limit of the runtime, or for a flush interval that is not
    positive. *)
Theorem flush_at_most_once (batchSize : Z)
    (batchInsert : list (list Event.t) → list Event.t → option error)
    (flushInterval maxCap : Z) :
  (∀ w : Worker,
     buffer (flush batchInsert w) = [] ∧
     (buffer w = [] → flush batchInsert w = w) ∧
     (buffer w ≠ [] →
      inserts (flush batchInsert w) = inserts w ++ [buffer w] ∧
      logged (flush batchInsert w) =
        logged w ++
          [match batchInsert (inserts w) (buffer w) with
           | Some err => LogBatchError ("batch insert error: " +:+ err)
           | None => LogInserted (length (buffer w))
           end])) ∧
  (∀ w : Worker,
     turn batchSize batchInsert w StopBatch = finish (flush batchInsert w) ∧
     turn batchSize batchInsert w TickerC = flush batchInsert w ∧
     turn batchSize batchInsert w BatchChanClosed =
       finish (flush batchInsert w) ∧
     ∀ event : Event.t,
       batchSize ≤ Z.of_nat (length (buffer w)) + 1 →
       turn batchSize batchInsert w (BatchChan event) =
         flush batchInsert
           (mkWorker (buffer w ++ [event]) (inserts w) (logged w)
              (batchDone w))) ∧
  (∀ schedule : list Selected,
     match
       batchInserterOptimized batchSize batchInsert flushInterval maxCap
         schedule
     with
     | Ran w =>
         concat (inserts w) ++ buffer w = received schedule ∧
         Forall (λ batch, batch ≠ []) (inserts w) ∧
         (batchDone w = true → buffer w = [])
     | Panicked _ => startPanics batchSize flushInterval maxCap
     end).
Proof.
  split; [| split].
  - intros w. split; [apply flush_buffer |].
    split; [apply flush_empty |].
    intros H. by rewrite flush_nonempty.
  - intros w. do 3 (split; [reflexivity |]).
    intros event Hsize. cbn [turn buffer].
    assert ((Z.of_nat (length (buffer w ++ [event])) >=? batchSize) = true)
      as ->; [| done].
    apply Z.geb_le. rewrite length_app. cbn [length]. lia.
  - intros schedule.
    destruct (batchInserterOptimized_cases batchSize batchInsert
                flushInterval maxCap schedule) as [(message & -> & H) | ->];
      [done |].
    split; [| split].
    + by rewrite loop_total.
    + by apply loop_writes_nonempty.
    + by apply loop_done.
Qed.

Lemma flush_at_most_once_witness :
  let a := sampleEvent "a" "" in
  let b := sampleEvent "b" "" in
  let w := mkWorker [a; b] [] [] false in
  buffer w ≠ [] ∧
  inserts (flush refusingStore w) = [[a; b]] ∧
  logged (flush refusingStore w) =
    [LogBatchError "batch insert error: connection refused"] ∧
  buffer (flush refusingStore w) = [].
Proof.
  intros a b w.
  assert (buffer w ≠ []) as H by done.
  destruct (proj1 (flush_at_most_once 2 refusingStore sampleInterval
                     sampleMaxCap) w)
    as (Hbuffer & _ & Hwrite).
  destruct (Hwrite H) as [Hinserts Hlogged].
  split; [exact H |]. split; [exact Hinserts |].
  split; [exact Hlogged | exact Hbuffer].
Defined.

(** With a batch size of three and no tick, three events give one write that
    holds all three, and an empty buffer. *)
Example three_events_one_flush
    (batchInsert : list (list Event.t) → list Event.t → option error)
    (e1 e2 e3 : Event.t) :
  ∃ w,
    batchInserterOptimized 3 batchInsert sampleInterval sampleMaxCap
      [BatchChan e1; BatchChan e2; BatchChan e3] = Ran w ∧
    inserts w = [[e1; e2; e3]] ∧ buffer w = [].
Proof. eexists. split; [reflexivity |]. by split. Qed.

(** A write that fails is not tried again: the later writes hold the later
    events only. *)
Example refused_batch_not_retried :
  let a := sampleEvent "a" "" in
  let b := sampleEvent "b" "" in
  let c := sampleEvent "c" "" in
  batchInserterOptimized 2 refusingStore sampleInterval sampleMaxCap
    [BatchChan a; BatchChan b; TickerC; BatchChan c; StopBatch] =
    Ran (mkWorker [] [[a; b]; [c]]
           [LogBatchError "batch insert error: connection refused";
            LogBatchError "batch insert error: connection refused"]
           true).
Proof. by vm_compute. Qed.

(** * Further properties of the planner *)

Section QueryText.

Variable database : string.
Implicit Types (filter : Filter.t) (c : Clauses) (name column : string).

(** Every block keeps the first condition. *)
Lemma addInList_head {A : Type} column (bind : A → Arg) (xs : list A) c
    (first : string) :
  head c.1 = Some first → head (addInList column bind xs c).1 = Some first.
Proof.
  unfold addInList. destruct (nonEmpty xs); [| done].
  destruct c as [[|x l] a]; [done |]. by intros [= ->].
Qed.

Lemma addHasAny_head column (xs : list string) c (first : string) :
  head c.1 = Some first → head (addHasAny column xs c).1 = Some first.
Proof. destruct c as [[|x l] a]; [done |]. by intros [= ->]. Qed.

Lemma addBound_head (condition : string) (bound : option Z) c
    (first : string) :
  head c.1 = Some first → head (addBound condition bound c).1 = Some first.
Proof.
  destruct bound; [| done]. destruct c as [[|x l] a]; [done |].
  by intros [= ->].
Qed.

Lemma addRoutedTag_head name filter c (first : string) :
  head c.1 = Some first →
  head (addRoutedTag database name filter c).1 = Some first.
Proof.
  intros H. unfold addRoutedTag. destruct (nonEmpty _); [| done].
  destruct (String.eqb _ _); [by apply addInList_head | by apply addHasAny_head].
Qed.

Lemma addArrayTag_head name filter c (first : string) :
  head c.1 = Some first → head (addArrayTag name filter c).1 = Some first.
Proof.
  intros H. unfold addArrayTag. destruct (nonEmpty _); [| done].
  by apply addHasAny_head.
Qed.

Lemma addSearch_head filter c (first : string) :
  head c.1 = Some first → head (addSearch filter c).1 = Some first.
Proof.
  unfold addSearch. destruct (String.eqb _ _); [done |].
  destruct c as [[|x l] a]; [done |]. by intros [= ->].
Qed.

Lemma conditions_head filter :
  head (conditions database filter) = Some "deleted = 0".
Proof.
  unfold conditions, clauses. cbv zeta.
  apply addSearch_head, addInList_head, addArrayTag_head, addArrayTag_head,
    addRoutedTag_head, addRoutedTag_head, addBound_head, addBound_head,
    addInList_head, addInList_head, addInList_head.
  reflexivity.
Qed.

End QueryText.

(** X1. The frame of every query: the seven selected columns, the routed table
    read with [FINAL], a [WHERE] clause whose first condition excludes the
    soft-deleted rows, newest first, and the row cap. *)
Theorem query_frame (database : string) (filter : Filter.t) :
  ∃ rest : list string,
    conditions database filter = "deleted = 0" :: rest ∧
    (buildQuery database filter).1.2 =
      (((("SELECT id, pubkey, created_at, kind, content, sig, toJSONString(tags) as tags_json FROM "
          +:+ (buildQuery database filter).1.1) +:+ " FINAL WHERE ")
        +:+ Join ("deleted = 0" :: rest) " AND ")
       +:+ " ORDER BY created_at DESC LIMIT ")
      +:+ formatInt (limit filter).
Proof.
  pose proof (conditions_head database filter) as H.
  destruct (conditions database filter) as [|first rest] eqn:E; [done |].
  injection H as ->. exists rest. split; [done |].
  cbn [fst snd buildQuery]. unfold query, selectWhere. cbv zeta.
  rewrite E. cbn [nonEmpty length Nat.ltb Nat.leb].
  by rewrite !append_assoc.
Qed.

(** ** Placeholders and bound parameters *)

Section Placeholders.

Variable database : string.
Implicit Types (filter : Filter.t) (c : Clauses) (name column : string).

(** Evaluates the counts of the literal pieces of a text. *)
Ltac is_literal s :=
  lazymatch s with
  | EmptyString => idtac
  | String _ ?rest => is_literal rest
  end.

Ltac count_literals :=
  repeat match goal with
  | |- context [countChar placeholder ?s] =>
      is_literal s;
      let v := eval vm_compute in (countChar placeholder s) in
      change (countChar placeholder s) with v
  end.

Lemma countChar_append (ch : Ascii.ascii) (a b : string) :
  countChar ch (a +:+ b) = (countChar ch a + countChar ch b)%nat.
Proof.
  induction a as [|x a IH]; [done |].
  rewrite append_cons. cbn [countChar]. rewrite IH.
  destruct (Ascii.eqb x ch); lia.
Qed.

Lemma sum_list_cons (n : nat) (l : list nat) :
  sum_list (n :: l) = (n + sum_list l)%nat.
Proof. reflexivity. Qed.

Lemma countChar_Join (ch : Ascii.ascii) (l : list string) (sep : string) :
  countChar ch sep = 0%nat →
  countChar ch (Join l sep) = sum_list (countChar ch <$> l).
Proof.
  intros Hsep. induction l as [|x l IH]; [done |].
  destruct l as [|y l].
  - cbn. lia.
  - rewrite Join_cons by done. rewrite !countChar_append, Hsep, IH.
    rewrite !fmap_cons, !sum_list_cons. lia.
Qed.

Lemma countChar_placeholders (n : nat) :
  countChar placeholder (Join (replicate n "?") ",") = n.
Proof.
  rewrite countChar_Join by reflexivity.
  induction n as [|n IH]; [done |].
  cbn [replicate]. rewrite fmap_cons, sum_list_cons, IH. reflexivity.
Qed.

Lemma countChar_uint (d : Decimal.uint) :
  countChar placeholder (NilEmpty.string_of_uint d) = 0%nat.
Proof. induction d; cbn [NilEmpty.string_of_uint countChar]; by rewrite ?IHd. Qed.

Lemma countChar_formatInt (n : Z) : countChar placeholder (formatInt n) = 0%nat.
Proof.
  unfold formatInt, NilZero.string_of_int, NilZero.string_of_uint.
  destruct (Z.to_int n) as [d | d]; destruct d; try reflexivity;
    cbn [countChar]; rewrite ?countChar_uint;
    try (cbn [NilEmpty.string_of_uint countChar]; rewrite countChar_uint);
    reflexivity.
Qed.

Lemma countChar_inList column (n : nat) :
  countChar placeholder column = 0%nat →
  countChar placeholder (inList column n) = n.
Proof.
  intros H. unfold inList.
  rewrite !countChar_append, H, countChar_placeholders.
  count_literals. lia.
Qed.

Lemma sum_list_snoc (l : list string) (s : string) :
  sum_list (countChar placeholder <$> l ++ [s]) =
    (sum_list (countChar placeholder <$> l) + countChar placeholder s)%nat.
Proof.
  rewrite fmap_app, sum_list_with_app.
  change (countChar placeholder <$> [s]) with [countChar placeholder s].
  rewrite sum_list_cons. cbn [sum_list_with]. lia.
Qed.

Lemma addInList_balanced {A : Type} column (bind : A → Arg) (xs : list A) c :
  countChar placeholder column = 0%nat →
  balanced c → balanced (addInList column bind xs c).
Proof.
  unfold balanced, addInList. intros Hcol H.
  destruct (nonEmpty xs); [| done]. cbn [fst snd].
  rewrite sum_list_snoc, length_app, length_fmap, H.
  by rewrite countChar_inList.
Qed.

Lemma addHasAny_balanced column (xs : list string) c :
  countChar placeholder column = 0%nat →
  balanced c → balanced (addHasAny column xs c).
Proof.
  unfold balanced, addHasAny. intros Hcol H. cbn [fst snd].
  rewrite sum_list_snoc, length_app, H.
  rewrite !countChar_append, Hcol. reflexivity.
Qed.

Lemma addBound_balanced (condition : string) (bound : option Z) c :
  countChar placeholder condition = 1%nat →
  balanced c → balanced (addBound condition bound c).
Proof.
  unfold balanced, addBound. intros Hcond H.
  destruct bound; [| done]. cbn [fst snd].
  rewrite sum_list_snoc, length_app, H, Hcond. reflexivity.
Qed.

Lemma addRoutedTag_balanced name filter c :
  countChar placeholder name = 0%nat →
  balanced c → balanced (addRoutedTag database name filter c).
Proof.
  intros Hname H. unfold addRoutedTag. destruct (nonEmpty _); [| done].
  destruct (String.eqb _ _).
  - apply addInList_balanced; [| done]. by rewrite !countChar_append, Hname.
  - apply addHasAny_balanced; [| done]. by rewrite !countChar_append, Hname.
Qed.

Lemma addArrayTag_balanced name filter c :
  countChar placeholder name = 0%nat →
  balanced c → balanced (addArrayTag name filter c).
Proof.
  intros Hname H. unfold addArrayTag. destruct (nonEmpty _); [| done].
  apply addHasAny_balanced; [| done]. by rewrite !countChar_append, Hname.
Qed.

Lemma addSearch_balanced filter c :
  balanced c → balanced (addSearch filter c).
Proof.
  unfold balanced, addSearch. intros H.
  destruct (String.eqb _ _); [done |]. cbn [fst snd].
  rewrite sum_list_snoc, length_app, H. reflexivity.
Qed.

Lemma clauses_balanced filter : balanced (clauses database filter).
Proof.
  unfold clauses. cbv zeta.
  apply addSearch_balanced.
  apply addInList_balanced; [reflexivity |].
  apply addArrayTag_balanced; [reflexivity |].
  apply addArrayTag_balanced; [reflexivity |].
  apply addRoutedTag_balanced; [reflexivity |].
  apply addRoutedTag_balanced; [reflexivity |].
  apply addBound_balanced; [reflexivity |].
  apply addBound_balanced; [reflexivity |].
  apply addInList_balanced; [reflexivity |].
  apply addInList_balanced; [reflexivity |].
  apply addInList_balanced; [reflexivity |].
  reflexivity.
Qed.

Lemma countChar_table filter :
  countChar placeholder (table database filter) =
    countChar placeholder database.
Proof.
  unfold table, tableName.
  repeat match goal with
  | |- context [if ?b then _ else _] => destruct b
  end; rewrite !countChar_append;
    generalize (countChar placeholder database); intros n;
    count_literals; lia.
Qed.

Lemma countChar_query filter :
  countChar placeholder (query database filter) =
    (countChar placeholder database + length (args database filter))%nat.
Proof.
  unfold query, selectWhere. cbv zeta.
  pose proof (clauses_balanced filter) as H. unfold balanced in H.
  destruct (nonEmpty (conditions database filter)) eqn:E.
  - rewrite !countChar_append, countChar_formatInt, countChar_table.
    rewrite countChar_Join by reflexivity.
    unfold conditions, args. rewrite H.
    generalize (countChar placeholder database); intros n.
    generalize (length (clauses database filter).2); intros m.
    count_literals. lia.
  - apply nonEmpty_false in E.
    pose proof (conditions_head database filter) as Hhead.
    by rewrite E in Hhead.
Qed.

End Placeholders.

(** X2. The text of the query holds one placeholder for each bound parameter,
    beside the question marks of the database name, if it has any. *)
Theorem placeholders_match_args (database : string) (filter : Filter.t) :
  countChar placeholder (buildQuery database filter).1.2 =
    (countChar placeholder database +
     length (buildQuery database filter).2)%nat.
Proof. apply countChar_query. Qed.

(** ** What the text of the query depends on *)

Section Shapes.

Variable database : string.
Implicit Types (filter : Filter.t) (c : Clauses) (name column : string).

Lemma addInList_text {A B : Type} column (bind : A → Arg) (bind' : B → Arg)
    (xs : list A) (xs' : list B) c c' :
  length xs = length xs' → c.1 = c'.1 →
  (addInList column bind xs c).1 = (addInList column bind' xs' c').1.
Proof.
  intros Hlen Hc. unfold addInList, nonEmpty. rewrite Hlen.
  destruct (0 <? length xs')%nat; cbn [fst]; by rewrite Hc.
Qed.

Lemma addHasAny_text column (xs xs' : list string) c c' :
  c.1 = c'.1 → (addHasAny column xs c).1 = (addHasAny column xs' c').1.
Proof. intros Hc. unfold addHasAny. cbn [fst]. by rewrite Hc. Qed.

Lemma addBound_text (condition : string) (bound bound' : option Z) c c' :
  bool_decide (is_Some bound) = bool_decide (is_Some bound') → c.1 = c'.1 →
  (addBound condition bound c).1 = (addBound condition bound' c').1.
Proof.
  intros Hb Hc. destruct bound, bound'; cbn [addBound fst];
    rewrite ?Hc; done.
Qed.

Lemma addRoutedTag_text name filter filter' c c' :
  table database filter = table database filter' →
  length (tagValues filter name) = length (tagValues filter' name) →
  c.1 = c'.1 →
  (addRoutedTag database name filter c).1 =
    (addRoutedTag database name filter' c').1.
Proof.
  intros Ht Hlen Hc. unfold addRoutedTag, nonEmpty. rewrite Ht, Hlen.
  destruct (0 <? _)%nat; [| done].
  destruct (String.eqb _ _); [by apply addInList_text | by apply addHasAny_text].
Qed.

Lemma addArrayTag_text name filter filter' c c' :
  length (tagValues filter name) = length (tagValues filter' name) →
  c.1 = c'.1 →
  (addArrayTag name filter c).1 = (addArrayTag name filter' c').1.
Proof.
  intros Hlen Hc. unfold addArrayTag, nonEmpty. rewrite Hlen.
  destruct (0 <? _)%nat; [by apply addHasAny_text | done].
Qed.

Lemma addSearch_text filter filter' c c' :
  negb (String.eqb (Filter.Search filter) "") =
    negb (String.eqb (Filter.Search filter') "") →
  c.1 = c'.1 →
  (addSearch filter c).1 = (addSearch filter' c').1.
Proof.
  intros Hs Hc. unfold addSearch.
  destruct (String.eqb (Filter.Search filter) ""),
    (String.eqb (Filter.Search filter') ""); try done.
  cbn [fst]. by rewrite Hc.
Qed.

Lemma shape_table filter filter' :
  shape filter = shape filter' →
  table database filter = table database filter'.
Proof.
  unfold shape. cbn [fmap list_fmap plannedTagNames].
  intros [= Hids Hauthors Hkinds Hp He Ha Ht Hd _ _ _ _].
  unfold table, tagTypeCount, populated, nonEmpty.
  by rewrite Hids, Hauthors, Hkinds, Hp, He, Ha, Ht, Hd.
Qed.

Lemma shape_conditions filter filter' :
  shape filter = shape filter' →
  conditions database filter = conditions database filter'.
Proof.
  intros Hshape. pose proof (shape_table _ _ Hshape) as Htable.
  revert Hshape. unfold shape. cbn [fmap list_fmap plannedTagNames].
  intros [= Hids Hauthors Hkinds Hp He Ha Ht Hd Hsince Huntil Hsearch _].
  unfold conditions, clauses. cbv zeta.
  apply addSearch_text; [done |].
  apply addInList_text; [done |].
  apply addArrayTag_text; [done |].
  apply addArrayTag_text; [done |].
  apply addRoutedTag_text; [done | done |].
  apply addRoutedTag_text; [done | done |].
  apply addBound_text; [done |].
  apply addBound_text; [done |].
  apply addInList_text; [done |].
  apply addInList_text; [done |].
  apply addInList_text; [done |].
  reflexivity.
Qed.

End Shapes.

(** X3. The routed table and the text of the query depend on the filter through
    its shape only: two filters with lists of the same lengths, the same
    bounds present, a search term present or not in both, and the same limit
    get the same table and, character for character, the same query. The
    values themselves go to the bound parameters. *)
Theorem query_text_from_shape (database : string) (filter filter' : Filter.t) :
  shape filter = shape filter' →
  (buildQuery database filter).1.1 = (buildQuery database filter').1.1 ∧
  (buildQuery database filter).1.2 = (buildQuery database filter').1.2.
Proof.
  intros Hshape. cbn [fst snd buildQuery].
  pose proof (shape_table database _ _ Hshape) as Htable.
  pose proof (shape_conditions database _ _ Hshape) as Hconditions.
  split; [done |].
  unfold query, selectWhere, limit. cbv zeta.
  rewrite Htable, Hconditions.
  assert (Filter.Limit filter = Filter.Limit filter') as ->; [| done].
  by injection Hshape.
Qed.

Lemma query_text_from_shape_witness :
  tagValues filterP "p" ≠ tagValues filterP' "p" ∧
  (buildQuery "nostr" filterP).1.2 = (buildQuery "nostr" filterP').1.2.
Proof.
  split; [by vm_compute |].
  apply (query_text_from_shape "nostr" filterP filterP'). reflexivity.
Defined.

(** ** Tag names that the planner does not read *)

(** X4. [buildQuery] reads the tag map at [p], [e], [a], [t] and [d] only: two
    filters that agree there, and on every other field, get the same table,
    the same query and the same bound parameters, whatever their tag maps
    hold under other names. *)
Theorem other_tag_names_ignored (database : string)
    (ids : list string) (kinds : list Z) (authors : list string)
    (tags tags' : gmap string (list string)) (since until : option Z)
    (limit : Z) (search : string) :
  (∀ name, name ∈ plannedTagNames →
     default [] (tags !! name) = default [] (tags' !! name)) →
  buildQuery database
    (Filter.mk ids kinds authors tags since until limit search) =
  buildQuery database
    (Filter.mk ids kinds authors tags' since until limit search).
Proof.
  intros Hsame.
  set (f := Filter.mk ids kinds authors tags since until limit search).
  set (f' := Filter.mk ids kinds authors tags' since until limit search).
  assert (∀ name, name ∈ plannedTagNames →
            tagValues f name = tagValues f' name) as H by exact Hsame.
  assert (tagValues f "p" = tagValues f' "p") as Hp by (apply H; set_solver).
  assert (tagValues f "e" = tagValues f' "e") as He by (apply H; set_solver).
  assert (tagValues f "a" = tagValues f' "a") as Ha by (apply H; set_solver).
  assert (tagValues f "t" = tagValues f' "t") as Ht by (apply H; set_solver).
  assert (tagValues f "d" = tagValues f' "d") as Hd by (apply H; set_solver).
  assert (table database f = table database f') as Htable.
  { unfold table, tagTypeCount, populated. by rewrite Hp, He, Ha, Ht, Hd. }
  assert (clauses database f = clauses database f') as Hclauses.
  { unfold clauses, addRoutedTag, addArrayTag. cbv zeta.
    by rewrite Htable, Hp, He, Ha, Ht, Hd. }
  unfold buildQuery, query, selectWhere, conditions, args. cbv zeta.
  by rewrite Htable, Hclauses.
Qed.

Lemma other_tag_names_ignored_witness :
  buildQuery "nostr" filterGR = buildQuery "nostr" Filter.zero ∧
  conditions "nostr" filterGR = ["deleted = 0"].
Proof.
  split; [| reflexivity].
  apply (other_tag_names_ignored "nostr" [] [] []
           (<["g" := ["u4pruyd"]]> {["r" := ["wss://relay"]]}) ∅
           None None 0 "").
  intros name Hname. unfold plannedTagNames in Hname.
  rewrite !elem_of_cons, elem_of_nil in Hname.
  destruct Hname as [->|[->|[->|[->|[->|[]]]]]]; reflexivity.
Defined.

(** ** The width of the bound integers *)

Section Widths.

Variable database : string.
Implicit Types (filter : Filter.t) (c : Clauses) (name column : string).

Lemma uint16_range (x : Z) : 0 ≤ uint16 x < 2 ^ 16.
Proof. unfold uint16. apply Z.mod_pos_bound. lia. Qed.

Lemma uint32_range (x : Z) : 0 ≤ uint32 x < 2 ^ 32.
Proof. unfold uint32. apply Z.mod_pos_bound. lia. Qed.

Lemma uint16_idemp (x : Z) : uint16 (uint16 x) = uint16 x.
Proof. unfold uint16. apply Z.mod_mod. lia. Qed.

Lemma uint32_idemp (x : Z) : uint32 (uint32 x) = uint32 x.
Proof. unfold uint32. apply Z.mod_mod. lia. Qed.

Lemma addInList_range {A : Type} column (bind : A → Arg) (xs : list A) c :
  (∀ x, argInRange (bind x)) →
  Forall argInRange c.2 → Forall argInRange (addInList column bind xs c).2.
Proof.
  intros Hbind H. unfold addInList. destruct (nonEmpty xs); [| done].
  cbn [snd]. apply Forall_app. split; [done |].
  apply Forall_fmap, Forall_forall. intros x _. apply Hbind.
Qed.

Lemma addHasAny_range column (xs : list string) c :
  Forall argInRange c.2 → Forall argInRange (addHasAny column xs c).2.
Proof.
  intros H. unfold addHasAny. cbn [snd]. apply Forall_app.
  split; [done |]. by repeat constructor.
Qed.

Lemma addBound_range (condition : string) (bound : option Z) c :
  Forall argInRange c.2 → Forall argInRange (addBound condition bound c).2.
Proof.
  intros H. destruct bound as [ts |]; [| done]. cbn [addBound snd].
  apply Forall_app. split; [done |].
  constructor; [apply uint32_range | constructor].
Qed.

Lemma addRoutedTag_range name filter c :
  Forall argInRange c.2 →
  Forall argInRange (addRoutedTag database name filter c).2.
Proof.
  intros H. unfold addRoutedTag. destruct (nonEmpty _); [| done].
  destruct (String.eqb _ _);
    [by apply addInList_range | by apply addHasAny_range].
Qed.

Lemma addArrayTag_range name filter c :
  Forall argInRange c.2 → Forall argInRange (addArrayTag name filter c).2.
Proof.
  intros H. unfold addArrayTag. destruct (nonEmpty _); [| done].
  by apply addHasAny_range.
Qed.

Lemma addSearch_range filter c :
  Forall argInRange c.2 → Forall argInRange (addSearch filter c).2.
Proof.
  intros H. unfold addSearch. destruct (String.eqb _ _); [done |].
  cbn [snd]. apply Forall_app. split; [done |]. by repeat constructor.
Qed.

Lemma clauses_range filter : Forall argInRange (clauses database filter).2.
Proof.
  unfold clauses. cbv zeta.
  apply addSearch_range, addInList_range; [done |].
  apply addArrayTag_range, addArrayTag_range, addRoutedTag_range,
    addRoutedTag_range, addBound_range, addBound_range.
  apply addInList_range; [intros x; apply uint16_range |].
  apply addInList_range; [done |].
  apply addInList_range; [done |].
  constructor.
Qed.

End Widths.

(** X5. Every integer that [buildQuery] binds fits its column: a kind is bound
    as a number from 0 to 65535 and a time bound as a number from 0 to
    2^32 - 1, whatever the filter holds. *)
Theorem bound_integers_in_range (database : string) (filter : Filter.t) :
  Forall argInRange (buildQuery database filter).2.
Proof. apply clauses_range. Qed.

(** X6. Kinds and time bounds outside the width of their columns are not
    rejected: they are reduced modulo 2^16 and 2^32, so a filter and its
    reduced filter get the same table, query and bound parameters. *)
Theorem out_of_range_values_wrap (database : string)
    (ids : list string) (kinds : list Z) (authors : list string)
    (tags : gmap string (list string)) (since until : option Z)
    (limit : Z) (search : string) :
  buildQuery database
    (Filter.mk ids kinds authors tags since until limit search) =
  buildQuery database
    (Filter.mk ids (uint16 <$> kinds) authors tags (uint32 <$> since)
       (uint32 <$> until) limit search).
Proof.
  set (f := Filter.mk ids kinds authors tags since until limit search).
  set (f' := Filter.mk ids (uint16 <$> kinds) authors tags (uint32 <$> since)
               (uint32 <$> until) limit search).
  assert (table database f = table database f') as Htable.
  { unfold table, nonEmpty. cbn [Filter.IDs Filter.Authors Filter.Kinds f f'].
    by rewrite length_fmap. }
  assert (clauses database f = clauses database f') as Hclauses.
  { unfold clauses, addRoutedTag, addArrayTag, addSearch. cbv zeta.
    rewrite Htable.
    cbn [Filter.IDs Filter.Authors Filter.Kinds Filter.Since Filter.Until
         Filter.Search f f'].
    change (tagValues f') with (tagValues f).
    assert (∀ c, addInList "kind" (λ kind, ArgUint16 (uint16 kind))
                   (uint16 <$> kinds) c =
                 addInList "kind" (λ kind, ArgUint16 (uint16 kind)) kinds c)
      as Hkinds.
    { intros c. unfold addInList, nonEmpty.
      rewrite length_fmap, <- list_fmap_compose.
      assert ((λ kind, ArgUint16 (uint16 kind)) ∘ uint16 <$> kinds =
              (λ kind, ArgUint16 (uint16 kind)) <$> kinds) as ->; [| done].
      apply list_fmap_ext. intros i x _. cbn. by rewrite uint16_idemp. }
    assert (∀ condition bound c,
              addBound condition (uint32 <$> bound) c =
              addBound condition bound c) as Hbound.
    { intros condition [ts |] c; [| done]. cbn [fmap option_fmap option_map addBound].
      by rewrite uint32_idemp. }
    rewrite Hkinds, !Hbound.
    done. }
  unfold buildQuery, query, selectWhere, conditions, args. cbv zeta.
  by rewrite Htable, Hclauses.
Qed.

(** A filter on kind 65537 is planned as a filter on kind 1. *)
Example kind_65537_wraps :
  buildQuery "nostr" (filterKinds [65537] None None) =
    buildQuery "nostr" (filterKinds [1] None None) ∧
  (buildQuery "nostr" (filterKinds [65537] (Some (-1)) None)).2 =
    [ArgUint16 1; ArgUint32 4294967295].
Proof. split; reflexivity. Qed.

(** ** Queries on a tag view *)

Section TagViews.

Variable database : string.
Implicit Types (filter : Filter.t) (c : Clauses) (name column : string).

(** A tag view is chosen only when the id, author and kind lists are
    empty. *)
Lemma table_tag_view_lists filter name :
  table database filter = tableName database ("events_by_tag_" +:+ name) →
  nonEmpty (Filter.IDs filter) = false ∧
  nonEmpty (Filter.Authors filter) = false ∧
  nonEmpty (Filter.Kinds filter) = false.
Proof.
  unfold table.
  destruct (nonEmpty (Filter.IDs filter));
    [intros H%tableName_inj; cbv in H; simplify_eq |].
  destruct (nonEmpty (Filter.Authors filter));
    [intros H%tableName_inj; cbv in H; simplify_eq |].
  destruct (nonEmpty (Filter.Kinds filter));
    [intros H%tableName_inj; cbv in H; simplify_eq |].
  done.
Qed.

Lemma tag_view_clauses filter name :
  table database filter = tableName database ("events_by_tag_" +:+ name) →
  clauses database filter =
    ("deleted = 0" ::
       match Filter.Since filter with
       | Some _ => ["created_at >= ?"]
       | None => []
       end ++
       match Filter.Until filter with
       | Some _ => ["created_at <= ?"]
       | None => []
       end ++
       [inList (valueColumn name) (length (tagValues filter name))] ++
       (if String.eqb (Filter.Search filter) "" then []
        else ["hasToken(content, ?)"]),
     match Filter.Since filter with
     | Some ts => [ArgUint32 (uint32 ts)]
     | None => []
     end ++
     match Filter.Until filter with
     | Some ts => [ArgUint32 (uint32 ts)]
     | None => []
     end ++
     (ArgString <$> tagValues filter name) ++
     (if String.eqb (Filter.Search filter) "" then []
      else [ArgString (Filter.Search filter)])).
Proof.
  intros Hview.
  destruct (table_tag_view_lists _ _ Hview) as (Hids & Hauthors & Hkinds).
  destruct (table_tag_view database _ _ Hview) as (Hcount & Hpop & Hname).
  unfold clauses, addRoutedTag, addArrayTag, addInList, addSearch. cbv zeta.
  rewrite Hids, Hauthors, Hkinds, Hview.
  unfold tagTypeCount, populated in Hcount, Hpop. unfold nonEmpty in *.
  destruct Hname as [-> | ->];
    destruct (0 <? length (tagValues filter "p"))%nat eqn:Pp;
    destruct (0 <? length (tagValues filter "e"))%nat eqn:Pe;
    destruct (0 <? length (tagValues filter "a"))%nat eqn:Pa;
    destruct (0 <? length (tagValues filter "t"))%nat eqn:Pt;
    destruct (0 <? length (tagValues filter "d"))%nat eqn:Pd;
    try discriminate Hpop; try lia;
    rewrite ?String.eqb_refl;
    destruct (Filter.Since filter), (Filter.Until filter),
      (String.eqb (Filter.Search filter) "");
    cbn [addBound fst snd app]; rewrite ?app_nil_r; reflexivity.
Qed.

End TagViews.

(** X7. A query that is routed to the view of a tag name constrains, beside the
    soft-delete flag, the time bounds and the search term, the value column
    of that view and nothing else: no id, author or kind list, no [hasAny]
    on an array column and no [tag_d], none of which the view carries. *)
Theorem tag_view_conditions (database : string) (filter : Filter.t)
    (name : string) :
  (buildQuery database filter).1.1 = tagView database name →
  conditions database filter =
    "deleted = 0" ::
      match Filter.Since filter with
      | Some _ => ["created_at >= ?"]
      | None => []
      end ++
      match Filter.Until filter with
      | Some _ => ["created_at <= ?"]
      | None => []
      end ++
      [inList (valueColumn name) (length (tagValues filter name))] ++
      (if String.eqb (Filter.Search filter) "" then []
       else ["hasToken(content, ?)"]) ∧
  (buildQuery database filter).2 =
    match Filter.Since filter with
    | Some ts => [ArgUint32 (ts mod 2 ^ 32)]
    | None => []
    end ++
    match Filter.Until filter with
    | Some ts => [ArgUint32 (ts mod 2 ^ 32)]
    | None => []
    end ++
    (ArgString <$> tagValues filter name) ++
    (if String.eqb (Filter.Search filter) "" then []
     else [ArgString (Filter.Search filter)]).
Proof.
  cbn [fst snd buildQuery]. rewrite <- tagView_eq. intros Hview.
  unfold conditions, args. by rewrite (tag_view_clauses database _ name).
Qed.

Lemma tag_view_conditions_witness :
  (buildQuery "nostr" filterPSearch).1.1 = tagView "nostr" "p" ∧
  conditions "nostr" filterPSearch =
    ["deleted = 0"; "created_at >= ?"; "tag_p_value IN (?,?)";
     "hasToken(content, ?)"] ∧
  (buildQuery "nostr" filterPSearch).2 =
    [ArgUint32 100; ArgString "def"; ArgString "ghi"; ArgString "word"].
Proof.
  assert ((buildQuery "nostr" filterPSearch).1.1 = tagView "nostr" "p")
    as H by reflexivity.
  split; [exact H |].
  destruct (tag_view_conditions "nostr" filterPSearch "p" H) as [Hc Ha].
  split; [rewrite Hc | rewrite Ha]; reflexivity.
Defined.

(** ** Conditions on the fields of the filter *)

Section Fields.

Variable database : string.
Implicit Types (filter : Filter.t) (c : Clauses) (name column : string).

(** The number of conditions that a block adds. *)
Lemma addInList_length {A : Type} column (bind : A → Arg) (xs : list A) c :
  length (addInList column bind xs c).1 =
    (length c.1 + constrained (nonEmpty xs))%nat.
Proof.
  unfold addInList. destruct (nonEmpty xs); cbn [fst constrained].
  - rewrite length_app. reflexivity.
  - lia.
Qed.

Lemma addBound_length (condition : string) (bound : option Z) c :
  length (addBound condition bound c).1 =
    (length c.1 + constrained (bool_decide (is_Some bound)))%nat.
Proof.
  destruct bound; cbn [addBound fst].
  - rewrite length_app. reflexivity.
  - cbn. lia.
Qed.

Lemma addRoutedTag_length name filter c :
  length (addRoutedTag database name filter c).1 =
    (length c.1 + constrained (populated filter name))%nat.
Proof.
  unfold addRoutedTag, populated, addInList, addHasAny.
  fold (nonEmpty (tagValues filter name)).
  destruct (nonEmpty (tagValues filter name)); cbn [constrained]; [| lia].
  destruct (String.eqb _ _); cbn [fst]; rewrite length_app; reflexivity.
Qed.

Lemma addArrayTag_length name filter c :
  length (addArrayTag name filter c).1 =
    (length c.1 + constrained (populated filter name))%nat.
Proof.
  unfold addArrayTag, populated, addHasAny.
  fold (nonEmpty (tagValues filter name)).
  destruct (nonEmpty (tagValues filter name)); cbn [constrained fst]; [| lia].
  rewrite length_app. reflexivity.
Qed.

Lemma addSearch_length filter c :
  length (addSearch filter c).1 =
    (length c.1 +
     constrained (negb (String.eqb (Filter.Search filter) "")))%nat.
Proof.
  unfold addSearch. destruct (String.eqb _ _); cbn [negb constrained fst].
  - lia.
  - rewrite length_app. reflexivity.
Qed.

Lemma conditions_length filter :
  length (conditions database filter) =
    (1 + constrainedDimensions filter)%nat.
Proof.
  unfold conditions, clauses, constrainedDimensions. cbv zeta.
  rewrite addSearch_length, addInList_length, !addArrayTag_length,
    !addRoutedTag_length, !addBound_length, !addInList_length.
  cbn [fst length].
  change (nonEmpty (tagValues filter "d")) with (populated filter "d"). lia.
Qed.

End Fields.

(** X9. The query has one condition for the soft-delete flag and one for each
    dimension that the filter constrains among ids, authors, kinds, the two
    time bounds, the tags [e], [p], [a], [t], [d] and the search term; an
    empty field adds nothing. *)
Theorem one_condition_per_dimension (database : string)
    (filter : Filter.t) :
  length (conditions database filter) =
    (1 + constrainedDimensions filter)%nat.
Proof. apply conditions_length. Qed.

(** ** The positions of the bound parameters *)

Section Positions.

Variable database : string.
Implicit Types (filter : Filter.t) (c : Clauses) (name column : string).





























End Positions.



(** The parameters of [hasAny(tag_e, ?)] stand where its placeholder does:
    after the parameter of the author list, before that of [hasAny(tag_p,
    ?)]. *)
Example e_values_bound_to_e_placeholder :
  conditions "nostr" filterAuthorPE =
    ["deleted = 0"; "pubkey IN (?)"; "hasAny(tag_e, ?)"; "hasAny(tag_p, ?)"] ∧
  (buildQuery "nostr" filterAuthorPE).2 =
    [ArgString "alice"; ArgStrings ["abc"]; ArgStrings ["def"]].
Proof. by vm_compute. Qed.



(** * Further properties of the result assembly *)

Section QueryFilter.

Variable Unmarshal : string → option (list (list string)).
Implicit Types (rows : list Scanned) (events : list Event.t).

(** The loop stops at the first row that does not scan. *)
Lemma scanRows_failed (before after : list Scanned) (event : Event.t)
    (err : error) events :
  forallb isScanOK before = true →
  scanRows Unmarshal (before ++ ScanFailed event err :: after) events =
    ([], Some ("failed to scan event: " +:+ err)).
Proof.
  revert events. induction before as [|row before IH]; intros events Hok.
  - reflexivity.
  - apply andb_true_iff in Hok as [Hrow Hbefore].
    destruct row as [c | ? ?]; [| done].
    apply (IH (events ++ [(scanEvent Unmarshal (ScanOK c)).1]) Hbefore).
Qed.

(** The loop returns no error only when every row scans. *)
Lemma scanRows_no_error rows events (result : list Event.t) :
  scanRows Unmarshal rows events = (result, None) →
  forallb isScanOK rows = true.
Proof.
  revert events. induction rows as [|row rows IH]; intros events; [done |].
  destruct row as [c | event err]; [| done].
  intros H. apply (IH _ H).
Qed.

(** When the loop returns an error, it returns no event. *)
Lemma scanRows_error rows events (result : list Event.t) (err : error) :
  scanRows Unmarshal rows events = (result, Some err) → result = [].
Proof.
  revert events. induction rows as [|row rows IH]; intros events; [done |].
  destruct row as [c | event err']; [| by intros [= <- _]].
  intros H. apply (IH _ H).
Qed.

End QueryFilter.

(** X10. [queryFilter] returns events or an error, never both, and it returns no
    error exactly when the query ran, every row scanned and the row
    iteration ended without error; the events are then those of the rows,
    one per row and in their order. *)
Theorem queryFilter_all_or_nothing
    (Unmarshal : string → option (list (list string)))
    (database : string) (QueryContext : string → list Arg → Queried)
    (filter : Filter.t) :
  let result := queryFilter Unmarshal database QueryContext filter in
  (result.2 ≠ None → result.1 = []) ∧
  (result.2 = None ↔
   ∃ rows,
     QueryContext (query database filter) (args database filter) =
       QueryRows rows None ∧
     forallb isScanOK rows = true) ∧
  (∀ rows,
     QueryContext (query database filter) (args database filter) =
       QueryRows rows None →
     forallb isScanOK rows = true →
     result = ((λ row, (scanEvent Unmarshal row).1) <$> rows, None)).
Proof.
  cbv zeta. unfold queryFilter, buildQuery.
  destruct (QueryContext _ _) as [err | rows rowsErr] eqn:Hquery.
  - split; [done |]. split; [| done].
    split; [done | by intros (rows & [=] & _)].
  - destruct (scanRows Unmarshal rows []) as [events [err |]] eqn:Hscan.
    + split; [done |]. split; [| intros rows' [= <- <-] Hok;
        by rewrite scanRows_ok in Hscan].
      split; [done |]. intros (rows' & [= <- <-] & Hok).
      by rewrite scanRows_ok in Hscan.
    + pose proof (scanRows_no_error _ _ _ _ Hscan) as Hok.
      rewrite scanRows_ok in Hscan by done. injection Hscan as <-.
      destruct rowsErr as [err |].
      * split; [done |]. split; [| by intros rows' [=]].
        split; [done | by intros (rows' & [=] & _)].
      * split; [done |]. split; [| by intros rows' [= <-] _].
        split; [| done]. intros _. by exists rows.
Qed.

(** X11. One row that does not scan fails the whole query: the result holds no
    event, not even those of the rows before it, and the error is that of
    the first such row. *)
Theorem queryFilter_first_scan_error
    (Unmarshal : string → option (list (list string)))
    (database : string) (QueryContext : string → list Arg → Queried)
    (filter : Filter.t) (before after : list Scanned) (event : Event.t)
    (err : error) (rowsErr : option error) :
  forallb isScanOK before = true →
  QueryContext (query database filter) (args database filter) =
    QueryRows (before ++ ScanFailed event err :: after) rowsErr →
  queryFilter Unmarshal database QueryContext filter =
    ([], Some ("failed to scan event: " +:+ err)).
Proof.
  intros Hok Hquery. unfold queryFilter, buildQuery.
  by rewrite Hquery, scanRows_failed.
Qed.

Lemma queryFilter_first_scan_error_witness :
  queryFilter sampleUnmarshal "nostr" failingQueryContext Filter.zero =
    ([], Some "failed to scan event: bad column").
Proof.
  apply (queryFilter_first_scan_error sampleUnmarshal "nostr"
           failingQueryContext Filter.zero [sampleRow "a" "[]"]
           [sampleRow "c" "[]"] (sampleEvent "" "") "bad column" None);
    reflexivity.
Defined.

Lemma queryFilter_all_or_nothing_witness :
  queryFilter sampleUnmarshal "nostr" sampleQueryContext Filter.zero =
    ([sampleEvent "a" ""; sampleEvent "b" ""; sampleEvent "c" ""], None).
Proof.
  pose proof (queryFilter_all_or_nothing sampleUnmarshal "nostr"
                sampleQueryContext Filter.zero) as (_ & _ & H).
  rewrite (H [sampleRow "a" "[]"; sampleRow "b" "{corrupt"; sampleRow "c" "[]"])
    by reflexivity.
  reflexivity.
Defined.

(** * Further properties of the deduplication *)

Section DeduplicationAlgebra.

Implicit Types (events result : list Event.t) (seen : gset string).

(** A list without repeated identities, none of them seen, is kept whole. *)
Lemma unseen_all seen events :
  NoDup (Event.ID <$> events) →
  (∀ event, event ∈ events → Event.ID event ∉ seen) →
  unseen seen events = events.
Proof.
  revert seen. induction events as [|x events IH]; intros seen Hnd Hfresh.
  - reflexivity.
  - rewrite fmap_cons in Hnd. apply NoDup_cons in Hnd as [Hx Hnd].
    rewrite unseen_cons, decide_False
      by (apply Hfresh, elem_of_cons; by left).
    f_equal. apply IH; [done |].
    intros event Hin [Heq%elem_of_singleton | Hseen]%elem_of_union.
    + apply Hx. rewrite <- Heq. by apply list_elem_of_fmap_2.
    + apply (Hfresh event); [apply elem_of_cons; by right | done].
Qed.

(** Seeing more identities beforehand filters the result. *)
Lemma unseen_union (s t : gset string) events :
  unseen (s ∪ t) events =
    filter (λ event, Event.ID event ∉ s) (unseen t events).
Proof.
  revert t. induction events as [|x events IH]; intros t.
  - reflexivity.
  - rewrite !unseen_cons.
    destruct (decide (Event.ID x ∈ t)) as [Ht | Ht].
    + rewrite decide_True by (by apply elem_of_union_r). apply IH.
    + destruct (decide (Event.ID x ∈ s)) as [Hs | Hs].
      * rewrite decide_True by (by apply elem_of_union_l).
        rewrite filter_cons_False by (intros H; by apply H).
        rewrite <- IH. f_equal. apply set_eq. intros y.
        rewrite !elem_of_union, elem_of_singleton.
        split; [tauto | intros [? | [-> | ?]]; tauto].
      * rewrite decide_False
          by (intros [? | ?]%elem_of_union; done).
        rewrite filter_cons_True by done. f_equal.
        rewrite <- IH. f_equal. apply set_eq. intros y.
        rewrite !elem_of_union, elem_of_singleton. tauto.
Qed.

Lemma unseen_app seen (l1 l2 : list Event.t) :
  unseen seen (l1 ++ l2) =
    unseen seen l1 ++ unseen (list_to_set (Event.ID <$> l1) ∪ seen) l2.
Proof.
  revert seen. induction l1 as [|x l1 IH]; intros seen.
  - cbn [app fmap list_fmap list_to_set unseen].
    f_equal. apply set_eq. intros y. rewrite elem_of_union, elem_of_empty.
    tauto.
  - rewrite <- app_comm_cons, !unseen_cons, fmap_cons.
    cbn [list_to_set].
    destruct (decide (Event.ID x ∈ seen)) as [Hin | Hout].
    + rewrite IH. f_equal. f_equal. apply set_eq. intros y.
      rewrite !elem_of_union, elem_of_singleton.
      split; [tauto | intros [[-> | ?] | ?]; tauto].
    + rewrite IH, <- app_comm_cons. f_equal. f_equal. f_equal.
      apply set_eq. intros y.
      rewrite !elem_of_union, elem_of_singleton. tauto.
Qed.

(** One more event at the end: it is retained when its identity is new. *)
Lemma unseen_snoc events (x : Event.t) :
  unseen ∅ (events ++ [x]) =
    unseen ∅ events ++
    (if decide (Event.ID x ∈ Event.ID <$> events) then [] else [x]).
Proof.
  rewrite unseen_app. f_equal. rewrite unseen_cons. cbn [unseen].
  apply decide_ext.
  rewrite elem_of_union, elem_of_list_to_set, elem_of_empty. tauto.
Qed.

Lemma firstOccurrence_snoc events (x : Event.t) (i : nat) :
  firstOccurrence (events ++ [x]) i ↔
  firstOccurrence events i ∨
  (i = length events ∧ Event.ID x ∉ Event.ID <$> events).
Proof.
  split.
  - intros (event & Hi & Hfirst).
    destruct (decide (i < length events)%nat) as [Hlt | Hge].
    + left. rewrite lookup_app_l in Hi by done. exists event.
      split; [done |]. intros j earlier Hj Hearlier.
      apply (Hfirst j earlier Hj). by apply lookup_app_l_Some.
    + right. rewrite lookup_app_r in Hi by lia.
      destruct (i - length events)%nat as [|k] eqn:Hk; [| done].
      injection Hi as <-. assert (i = length events) as -> by lia.
      split; [done |].
      intros (earlier & Hid & (j & Hj)%list_elem_of_lookup)%list_elem_of_fmap.
      apply (Hfirst j earlier); [by eapply lookup_lt_Some | | done].
      by apply lookup_app_l_Some.
  - intros [(event & Hi & Hfirst) | [-> Hnew]].
    + exists event. split; [by apply lookup_app_l_Some |].
      intros j earlier Hj Hearlier. apply (Hfirst j earlier Hj).
      rewrite lookup_app_l in Hearlier; [done |].
      apply lookup_lt_Some in Hi. lia.
    + exists x. split; [by apply list_lookup_middle |].
      intros j earlier Hj Hearlier Hid.
      rewrite lookup_app_l in Hearlier by done.
      apply Hnew. rewrite <- Hid. apply list_elem_of_fmap_2.
      apply list_elem_of_lookup. by exists j.
Qed.

(** The retained events stand at the first occurrences, in their order. *)
Lemma unseen_positions events :
  ∃ positions : list nat,
    retainsFirstOccurrences events (unseen ∅ events) positions.
Proof.
  induction events as [|x events IH] using rev_ind.
  - exists []. split; [| split].
    + intros a b i j _ Ha. by rewrite lookup_nil in Ha.
    + intros i. split; [by intros ?%elem_of_nil |].
      intros (event & Hi & _). by rewrite lookup_nil in Hi.
    + constructor.
  - destruct IH as (positions & Hsorted & Hmem & Hevents).
    assert (∀ i, i ∈ positions → (i < length events)%nat) as Hbound.
    { intros i (event & Hi & _)%Hmem. by eapply lookup_lt_Some. }
    assert (Forall2 (λ i event, (events ++ [x]) !! i = Some event)
              positions (unseen ∅ events)) as Hevents'.
    { eapply Forall2_impl; [exact Hevents |].
      intros i event Hi. by apply lookup_app_l_Some. }
    rewrite unseen_snoc.
    destruct (decide (Event.ID x ∈ Event.ID <$> events)) as [Hold | Hnew].
    + exists positions. rewrite app_nil_r. split; [done |].
      split; [| done].
      intros i. rewrite firstOccurrence_snoc, Hmem. tauto.
    + exists (positions ++ [length events]). split; [| split].
      * intros a b i j Hab Ha Hb.
        destruct (decide (b < length positions)%nat) as [Hlt | Hge].
        -- rewrite lookup_app_l in Ha by lia.
           rewrite lookup_app_l in Hb by done.
           by apply (Hsorted a b).
        -- rewrite lookup_app_r in Hb by lia.
           destruct (b - length positions)%nat as [|k] eqn:Hk; [| done].
           injection Hb as <-.
           rewrite lookup_app_l in Ha by lia.
           apply Hbound, list_elem_of_lookup. by exists a.
      * intros i.
        rewrite elem_of_app, list_elem_of_singleton, firstOccurrence_snoc,
          Hmem.
        tauto.
      * apply Forall2_app; [done |].
        constructor; [by apply list_lookup_middle | constructor].
Qed.

(** Two increasing lists with the same elements are equal. *)
Lemma increasing_unique (ps qs : list nat) :
  (∀ a b i j, (a < b)%nat → ps !! a = Some i → ps !! b = Some j → (i < j)%nat) →
  (∀ a b i j, (a < b)%nat → qs !! a = Some i → qs !! b = Some j → (i < j)%nat) →
  (∀ i, i ∈ ps ↔ i ∈ qs) → ps = qs.
Proof.
  revert qs. induction ps as [|x ps IH]; intros qs Hps Hqs Hsame.
  - destruct qs as [|y qs]; [done |].
    exfalso. apply (elem_of_nil y), Hsame, elem_of_cons. by left.
  - destruct qs as [|y qs].
    { exfalso. apply (elem_of_nil x), Hsame, elem_of_cons. by left. }
    assert (∀ i, i ∈ ps → (x < i)%nat) as Hx.
    { intros i [k Hk]%list_elem_of_lookup.
      apply (Hps 0%nat (S k) x i); [lia | done | done]. }
    assert (∀ i, i ∈ qs → (y < i)%nat) as Hy.
    { intros i [k Hk]%list_elem_of_lookup.
      apply (Hqs 0%nat (S k) y i); [lia | done | done]. }
    assert (x = y) as <-.
    { assert (x ∈ y :: qs) as [? | Hxq]%elem_of_cons
        by (apply Hsame, elem_of_cons; by left); [done |].
      assert (y ∈ x :: ps) as [? | Hyp]%elem_of_cons
        by (apply Hsame, elem_of_cons; by left); [done |].
      apply Hx in Hyp. apply Hy in Hxq. lia. }
    f_equal. apply IH.
    + intros a b i j Hab Ha Hb. apply (Hps (S a) (S b)); [lia | done | done].
    + intros a b i j Hab Ha Hb. apply (Hqs (S a) (S b)); [lia | done | done].
    + intros i. split; intros Hi.
      * assert (i ∈ x :: qs) as [-> | ?]%elem_of_cons
          by (apply Hsame, elem_of_cons; by right); [| done].
        apply Hx in Hi. lia.
      * assert (i ∈ x :: ps) as [-> | ?]%elem_of_cons
          by (apply Hsame, elem_of_cons; by right); [| done].
        apply Hy in Hi. lia.
Qed.

(** At most one list retains the first occurrences of the input. *)
Lemma retainsFirstOccurrences_unique events (r1 r2 : list Event.t)
    (ps qs : list nat) :
  retainsFirstOccurrences events r1 ps →
  retainsFirstOccurrences events r2 qs → r1 = r2.
Proof.
  intros (Hps & Hmem1 & Hr1) (Hqs & Hmem2 & Hr2).
  assert (ps = qs) as <-.
  { apply increasing_unique; [done | done |].
    intros i. by rewrite Hmem1, Hmem2. }
  clear Hps Hqs Hmem1 Hmem2. revert r2 Hr2.
  induction Hr1 as [|i event ps r1 Hi _ IH]; intros r2 Hr2.
  - by inversion Hr2.
  - inversion Hr2 as [|? event' ? r2' Hi' Hr2']; subst.
    f_equal; [congruence | by apply IH].
Qed.

End DeduplicationAlgebra.

(** C5. The result of [deduplicateEvents] is what the single pass over the
    list with the set of seen identities builds. It holds the events of
    exactly those positions of the input at which an identity occurs for the
    first time, in the order of these positions: an event is dropped exactly
    when an earlier position holds its identity, and the retained events
    keep their relative order; no other list does so. Hence no identity
    occurs in the result twice,
    every identity of the input occurs in it, it is a sublist of the input,
    and every retained event is the first event of the input with its
    identity. *)
Theorem deduplicateEvents_first_occurrences (events : list Event.t) :
  let result := deduplicateEvents events in
  result = (foldl dedupStep (∅, []) events).2 ∧
  (∃ positions : list nat,
     retainsFirstOccurrences events result positions) ∧
  (∀ (other : list Event.t) (positions : list nat),
     retainsFirstOccurrences events other positions → other = result) ∧
  NoDup (Event.ID <$> result) ∧
  (∀ event, event ∈ events → Event.ID event ∈ Event.ID <$> result) ∧
  sublist result events ∧
  (∀ event, event ∈ result →
     firstWithID (Event.ID event) events = Some event).
Proof.
  cbv zeta. rewrite deduplicateEvents_unseen.
  split; [| split; [| split; [| split; [| split; [| split]]]]].
  - by rewrite foldl_dedupStep.
  - apply unseen_positions.
  - intros other positions Hother.
    destruct (unseen_positions events) as (positions' & Hresult).
    by apply (retainsFirstOccurrences_unique events _ _ positions positions').
  - apply unseen_NoDup.
  - intros event Hin. apply unseen_complete; [done | apply not_elem_of_empty].
  - apply unseen_sublist.
  - intros event. apply unseen_first.
Qed.

(** The retained entry of a duplicated identity is the first one, in place,
    also among equal records: of the two equal events at positions 0 and 2
    the one at position 0 stays, before the event of position 1. *)
Example deduplicateEvents_sample :
  deduplicateEvents
    [sampleEvent "a" "first"; sampleEvent "b" "other";
     sampleEvent "a" "second"; sampleEvent "c" "last"] =
    [sampleEvent "a" "first"; sampleEvent "b" "other"; sampleEvent "c" "last"] ∧
  deduplicateEvents
    [sampleEvent "a" "x"; sampleEvent "b" "y"; sampleEvent "a" "x"] =
    [sampleEvent "a" "x"; sampleEvent "b" "y"].
Proof. by vm_compute. Qed.

(** X12. Deduplicating twice is deduplicating once, and a list is left as it is
    exactly when no identity occurs in it twice. *)
Theorem deduplicateEvents_idempotent (events : list Event.t) :
  deduplicateEvents (deduplicateEvents events) = deduplicateEvents events ∧
  (deduplicateEvents events = events ↔ NoDup (Event.ID <$> events)).
Proof.
  rewrite !deduplicateEvents_unseen. split.
  - apply unseen_all; [apply unseen_NoDup |].
    intros event _. apply not_elem_of_empty.
  - split.
    + intros <-. apply unseen_NoDup.
    + intros Hnd. apply unseen_all; [done |].
      intros event _. apply not_elem_of_empty.
Qed.

(** X13. Deduplicating a concatenation keeps the deduplicated first list and,
    of the deduplicated second list, the events whose identity the first
    list does not hold. *)
Theorem deduplicateEvents_app (l1 l2 : list Event.t) :
  deduplicateEvents (l1 ++ l2) =
    deduplicateEvents l1 ++
    filter (λ event, Event.ID event ∉ Event.ID <$> l1)
      (deduplicateEvents l2).
Proof.
  rewrite !deduplicateEvents_unseen, unseen_app, unseen_union.
  f_equal. apply list_filter_iff. intros event.
  by rewrite elem_of_list_to_set.
Qed.

(** * Further properties of the batch inserter *)

Section Batches.

Variable batchSize : Z.
Variable batchInsert : list (list Event.t) → list Event.t → option error.
Implicit Types (w : Worker) (schedule : list Selected).

Local Abbreviation flushW := (flush batchInsert).
Local Abbreviation turnW := (turn batchSize batchInsert).
Local Abbreviation loopW := (loop batchSize batchInsert).

(** An invariant of the worker that every turn keeps is kept by the loop. *)
Lemma loop_invariant (P : Worker → Prop) w schedule :
  (∀ w s, P w → P (turnW w s)) → P w → P (loopW w schedule).
Proof.
  intros Hturn. revert w.
  induction schedule as [|s schedule IH]; intros w Hw; [done |].
  cbn [loop]. destruct (batchDone (turnW w s)); [by apply Hturn |].
  by apply IH, Hturn.
Qed.

Lemma flush_inserts w :
  inserts (flushW w) =
    inserts w ++ (if decide (buffer w = []) then [] else [buffer w]).
Proof.
  destruct (decide (buffer w = [])) as [H | H].
  - by rewrite flush_empty, app_nil_r.
  - by rewrite flush_nonempty.
Qed.

Lemma flush_bounded w :
  1 ≤ batchSize →
  Z.of_nat (length (buffer w)) ≤ batchSize →
  Forall (λ batch, Z.of_nat (length batch) ≤ batchSize) (inserts w) →
  bounded batchSize (flushW w).
Proof.
  intros Hsize Hbuffer Hwrites. split.
  - rewrite flush_buffer. cbn. lia.
  - rewrite flush_inserts. apply Forall_app. split; [done |].
    destruct (decide _); by repeat constructor.
Qed.

Lemma turn_bounded w (s : Selected) :
  1 ≤ batchSize → bounded batchSize w → bounded batchSize (turnW w s).
Proof.
  intros Hsize [Hbuffer Hwrites].
  destruct s as [| |event|]; cbn [turn].
  - apply flush_bounded; [done | lia | done].
  - apply flush_bounded; [done | lia | done].
  - cbn [buffer].
    destruct (Z.of_nat (length (buffer w ++ [event])) >=? batchSize) eqn:E.
    + apply flush_bounded; [done | | done]. cbn [buffer].
      rewrite length_app. cbn [length]. lia.
    + split; [| done]. cbn [buffer]. lia.
  - apply flush_bounded; [done | lia | done].
Qed.

Lemma flush_chunked w :
  1 ≤ batchSize →
  Z.of_nat (length (buffer w)) = batchSize →
  Forall (λ batch, Z.of_nat (length batch) = batchSize) (inserts w) →
  chunked batchSize (flushW w).
Proof.
  intros Hsize Hbuffer Hwrites. split.
  - rewrite flush_buffer. cbn. lia.
  - rewrite flush_inserts. apply Forall_app. split; [done |].
    destruct (decide _); by repeat constructor.
Qed.

Lemma turn_chunked w (event : Event.t) :
  1 ≤ batchSize → chunked batchSize w →
  chunked batchSize (turnW w (BatchChan event)).
Proof.
  intros Hsize [Hbuffer Hwrites]. cbn [turn buffer].
  destruct (Z.of_nat (length (buffer w ++ [event])) >=? batchSize) eqn:E.
  - apply Z.geb_le in E.
    apply flush_chunked; [done | | done]. cbn [buffer].
    rewrite length_app in *. cbn [length] in *. lia.
  - rewrite Z.geb_leb in E. apply Z.leb_gt in E.
    split; [| done]. cbn [buffer]. lia.
Qed.

Lemma loop_events (P : Worker → Prop) w (events : list Event.t) :
  (∀ w event, P w → P (turnW w (BatchChan event))) →
  batchDone w = false → P w →
  P (loopW w (BatchChan <$> events)) ∧
  batchDone (loopW w (BatchChan <$> events)) = false.
Proof.
  intros Hturn. revert w.
  induction events as [|event events IH]; intros w Hrun Hw; [done |].
  rewrite fmap_cons. cbn [loop].
  assert (batchDone (turnW w (BatchChan event)) = false) as Hrun'.
  { cbn [turn]. destruct (_ >=? _); [| done].
    by rewrite flush_batchDone. }
  rewrite Hrun'. apply IH; [done | by apply Hturn].
Qed.

Lemma received_events (events : list Event.t) :
  received (BatchChan <$> events) = events.
Proof. induction events as [|event events IH]; [done |]. cbn. by rewrite IH. Qed.

Lemma concat_length_chunks (batches : list (list Event.t)) :
  Forall (λ batch, Z.of_nat (length batch) = batchSize) batches →
  Z.of_nat (length (concat batches)) =
    batchSize * Z.of_nat (length batches).
Proof.
  induction 1 as [|batch batches Hbatch _ IH]; [cbn; lia |].
  cbn [concat]. rewrite length_app. cbn [length]. lia.
Qed.

(** With a batch size of at most one, the buffer is empty between turns. *)
Lemma turn_immediate w (s : Selected) :
  batchSize ≤ 1 → buffer w = [] →
  buffer (turnW w s) = [] ∧
  inserts (turnW w s) =
    inserts w ++
      match s with
      | BatchChan event => [[event]]
      | _ => []
      end.
Proof.
  intros Hsize Hbuffer.
  destruct s as [| |event|]; cbn [turn finish buffer inserts];
    rewrite ?flush_buffer, ?flush_inserts, ?Hbuffer; cbn [app buffer];
    rewrite ?app_nil_r; try done.
  assert ((Z.of_nat (length [event]) >=? batchSize) = true) as ->.
  { apply Z.geb_le. cbn. lia. }
  rewrite flush_buffer, flush_inserts. cbn [buffer inserts].
  by rewrite decide_False.
Qed.

Lemma loop_immediate w schedule :
  batchSize ≤ 1 → buffer w = [] → batchDone w = false →
  buffer (loopW w schedule) = [] ∧
  inserts (loopW w schedule) =
    inserts w ++ ((λ event, [event]) <$> received schedule).
Proof.
  intros Hsize. revert w.
  induction schedule as [|s schedule IH]; intros w Hbuffer Hrun.
  - cbn [loop received fmap list_fmap]. by rewrite app_nil_r.
  - cbn [loop].
    destruct (turn_immediate w s Hsize Hbuffer) as [Hb Hi].
    destruct s as [| |event|]; cbn [received fmap list_fmap].
    + cbn [turn finish batchDone]. cbn [turn finish] in Hb, Hi.
      by split.
    + assert (batchDone (turnW w TickerC) = false) as Hrun'
        by (cbn [turn]; by rewrite flush_batchDone).
      rewrite Hrun'. destruct (IH _ Hb Hrun') as [Hb' Hi'].
      split; [done |]. by rewrite Hi', Hi, app_nil_r.
    + assert (batchDone (turnW w (BatchChan event)) = false) as Hrun'.
      { cbn [turn]. destruct (_ >=? _); [| done].
        by rewrite flush_batchDone. }
      rewrite Hrun'. destruct (IH _ Hb Hrun') as [Hb' Hi'].
      split; [done |]. rewrite Hi', Hi.
      by rewrite <- app_assoc.
    + cbn [turn finish batchDone]. cbn [turn finish] in Hb, Hi.
      by split.
Qed.

Lemma turn_logged w (s : Selected) :
  Forall2 lineOf (logged w) (inserts w) →
  Forall2 lineOf (logged (turnW w s)) (inserts (turnW w s)).
Proof.
  assert (∀ w, Forall2 lineOf (logged w) (inserts w) →
               Forall2 lineOf (logged (flushW w)) (inserts (flushW w)))
    as Hflush.
  { intros w' H. destruct (decide (buffer w' = [])) as [Hb | Hb].
    - by rewrite flush_empty.
    - rewrite flush_nonempty by done. cbn [logged inserts].
      apply Forall2_app; [done |]. constructor; [| constructor].
      by destruct (batchInsert _ _). }
  intros H. destruct s as [| |event|]; cbn [turn finish logged inserts];
    try by apply Hflush.
  destruct (_ >=? _); [by apply Hflush | done].
Qed.

End Batches.

(** X14. With a batch size of at least one, within the capacity limit, and a
    positive flush interval, the goroutine reaches its loop, and after any
    run the buffer holds fewer events than the batch size and no write
    holds more events than the batch size. *)
Theorem buffer_below_batch_size (batchSize : Z)
    (batchInsert : list (list Event.t) → list Event.t → option error)
    (flushInterval maxCap : Z) (schedule : list Selected) :
  1 ≤ batchSize → batchSize ≤ maxCap → 0 < flushInterval →
  ∃ w,
    batchInserterOptimized batchSize batchInsert flushInterval maxCap
      schedule = Ran w ∧
    Z.of_nat (length (buffer w)) < batchSize ∧
    Forall (λ batch, Z.of_nat (length batch) ≤ batchSize) (inserts w).
Proof.
  intros Hsize Hcap Hinterval. eexists.
  split; [apply batchInserterOptimized_ran; lia |].
  apply (loop_invariant batchSize batchInsert (bounded batchSize)).
  - intros w s. by apply turn_bounded.
  - split; [cbn; lia | constructor].
Qed.

Lemma buffer_below_batch_size_witness :
  ∃ w,
    batchInserterOptimized 2 acceptingStore sampleInterval sampleMaxCap
      [BatchChan (sampleEvent "a" ""); TickerC;
       BatchChan (sampleEvent "b" ""); BatchChan (sampleEvent "c" "");
       BatchChan (sampleEvent "d" "")] = Ran w ∧
    Z.of_nat (length (buffer w)) < 2 ∧
    Forall (λ batch, Z.of_nat (length batch) ≤ 2) (inserts w).
Proof.
  apply (buffer_below_batch_size 2 acceptingStore sampleInterval
           sampleMaxCap); by vm_compute.
Defined.

(** X15. With a batch size of at least one, within the capacity limit, a
    positive flush interval and neither tick nor stop, the goroutine
    reaches its loop and the writes cut the received events into
    consecutive batches of exactly the batch size: there are as many writes
    as the batch size goes into the number of events, and the remainder
    waits in the buffer. *)
Theorem events_written_in_full_batches (batchSize : Z)
    (batchInsert : list (list Event.t) → list Event.t → option error)
    (flushInterval maxCap : Z) (events : list Event.t) :
  1 ≤ batchSize → batchSize ≤ maxCap → 0 < flushInterval →
  ∃ w,
    batchInserterOptimized batchSize batchInsert flushInterval maxCap
      (BatchChan <$> events) = Ran w ∧
    concat (inserts w) ++ buffer w = events ∧
    Forall (λ batch, Z.of_nat (length batch) = batchSize) (inserts w) ∧
    Z.of_nat (length (inserts w)) = Z.of_nat (length events) / batchSize ∧
    Z.of_nat (length (buffer w)) = Z.of_nat (length events) mod batchSize.
Proof.
  intros Hsize Hcap Hinterval.
  set (w := loop batchSize batchInsert (mkWorker [] [] [] false)
              (BatchChan <$> events)).
  exists w. split; [apply batchInserterOptimized_ran; lia |].
  assert (chunked batchSize w) as [Hbuffer Hwrites].
  { subst w.
    apply (loop_events batchSize batchInsert (chunked batchSize)).
    - intros w' event. by apply turn_chunked.
    - done.
    - split; [cbn; lia | constructor]. }
  assert (concat (inserts w) ++ buffer w = events) as Htotal.
  { subst w.
    rewrite loop_total by done. cbn [inserts buffer concat app].
    apply received_events. }
  split; [done |]. split; [done |].
  assert (Z.of_nat (length events) =
          batchSize * Z.of_nat (length (inserts w)) +
          Z.of_nat (length (buffer w))) as Hlen.
  { rewrite <- Htotal at 1. rewrite length_app, Nat2Z.inj_add.
    by rewrite (concat_length_chunks batchSize). }
  split.
  - apply (Z.div_unique_pos _ _ _ (Z.of_nat (length (buffer w)))); lia.
  - apply (Z.mod_unique_pos _ _ (Z.of_nat (length (inserts w)))); lia.
Qed.

Lemma events_written_in_full_batches_witness :
  let events := [sampleEvent "a" ""; sampleEvent "b" ""; sampleEvent "c" "";
                 sampleEvent "d" ""; sampleEvent "e" ""] in
  ∃ w,
    batchInserterOptimized 2 refusingStore sampleInterval sampleMaxCap
      (BatchChan <$> events) = Ran w ∧
    Z.of_nat (length (inserts w)) = 2 ∧ Z.of_nat (length (buffer w)) = 1.
Proof.
  intros events.
  destruct (events_written_in_full_batches 2 refusingStore sampleInterval
              sampleMaxCap events)
    as (w & Hran & _ & _ & Hwrites & Hbuffer); [lia | by vm_compute | by vm_compute |].
  exists w. split; [exact Hran |]. split; [exact Hwrites | exact Hbuffer].
Defined.

(** X16. With a batch size of zero or one and a positive flush interval, the
    goroutine reaches its loop, every received event is written at once in
    a batch of its own, and the buffer is empty after every turn. With a
    negative batch size the goroutine does not reach its loop: the
    allocation of its buffer panics. *)
Theorem small_batch_size_writes_each_event (batchSize : Z)
    (batchInsert : list (list Event.t) → list Event.t → option error)
    (flushInterval maxCap : Z) (schedule : list Selected) :
  (0 ≤ batchSize ≤ 1 → batchSize ≤ maxCap → 0 < flushInterval →
   ∃ w,
     batchInserterOptimized batchSize batchInsert flushInterval maxCap
       schedule = Ran w ∧
     inserts w = (λ event, [event]) <$> received schedule ∧
     buffer w = []) ∧
  (batchSize < 0 →
   batchInserterOptimized batchSize batchInsert flushInterval maxCap
     schedule = Panicked "runtime error: makeslice: cap out of range").
Proof.
  split.
  - intros Hsize Hcap Hinterval. eexists.
    split; [apply batchInserterOptimized_ran; lia |].
    destruct (loop_immediate batchSize batchInsert
                (mkWorker [] [] [] false) schedule) as [Hb Hi];
      [lia | done | done |].
    by split.
  - intros Hneg. unfold batchInserterOptimized.
    by assert ((batchSize <? 0) = true) as -> by lia.
Qed.

Lemma small_batch_size_writes_each_event_witness :
  (∃ w,
     batchInserterOptimized 0 acceptingStore sampleInterval sampleMaxCap
       [BatchChan (sampleEvent "a" ""); BatchChan (sampleEvent "b" "")] =
       Ran w ∧
     inserts w = [[sampleEvent "a" ""]; [sampleEvent "b" ""]] ∧
     buffer w = []) ∧
  batchInserterOptimized (-1) acceptingStore sampleInterval sampleMaxCap
    [BatchChan (sampleEvent "a" ""); BatchChan (sampleEvent "b" "")] =
    Panicked "runtime error: makeslice: cap out of range".
Proof.
  split.
  - apply (small_batch_size_writes_each_event 0 acceptingStore sampleInterval
             sampleMaxCap); by vm_compute.
  - apply (small_batch_size_writes_each_event (-1) acceptingStore
             sampleInterval sampleMaxCap). lia.
Defined.

(** X17. When the goroutine reaches its loop, it logs one line for each
    write, in order, and a line that reports success reports the number of
    events of its write; otherwise its start has panicked. *)
Theorem one_log_line_per_write (batchSize : Z)
    (batchInsert : list (list Event.t) → list Event.t → option error)
    (flushInterval maxCap : Z) (schedule : list Selected) :
  match
    batchInserterOptimized batchSize batchInsert flushInterval maxCap schedule
  with
  | Ran w => Forall2 lineOf (logged w) (inserts w)
  | Panicked _ => startPanics batchSize flushInterval maxCap
  end.
Proof.
  destruct (batchInserterOptimized_cases batchSize batchInsert
              flushInterval maxCap schedule) as [(message & -> & H) | ->];
    [done |].
  apply (loop_invariant batchSize batchInsert
           (λ w, Forall2 lineOf (logged w) (inserts w))).
  - intros w s. apply turn_logged.
  - constructor.
Qed.

(** * Properties of [batchInsertOptimized] *)

Section InsertRows.

Variable Column : Type.
Variable extractAllTags : list (list string) → Extracted Column.
Variable PrepareContext : string → option error.
Variable ExecContext :
  list (list (InsertArg Column)) → list (InsertArg Column) → option error.
Variable unixNow : Z.

Local Abbreviation row := (insertRow Column extractAllTags unixNow).
Local Abbreviation rowsFrom :=
  (insertRows Column extractAllTags ExecContext unixNow).

(** The loop executes the rows of a prefix of the events, and of all of
    them when it returns no error. *)
Lemma insertRows_prefix (events : list Event.t)
    (earlier : list (list (InsertArg Column))) :
  ∃ k : nat,
    (rowsFrom events earlier).1 = earlier ++ (row <$> take k events) ∧
    ((rowsFrom events earlier).2 = None → k = length events).
Proof.
  revert earlier. induction events as [|event events IH]; intros earlier.
  - exists 0%nat. cbn. by rewrite app_nil_r.
  - cbn [insertRows]. destruct (ExecContext earlier (row event)) as [err |].
    + exists 1%nat. cbn [fst snd take fmap list_fmap]. split; [| done].
      by rewrite take_0.
    + destruct (IH (earlier ++ [row event])) as (k & Hrows & Hall).
      exists (S k). rewrite Hrows. cbn [take fmap list_fmap length].
      split; [by rewrite <- app_assoc | intros H; by rewrite (Hall H)].
Qed.

(** The loop stops at the first row that the store refuses. *)
Lemma insertRows_refused (before after : list Event.t) (event : Event.t)
    (err : error) (earlier : list (list (InsertArg Column))) :
  (∀ k accepted, before !! k = Some accepted →
     ExecContext (earlier ++ (row <$> take k before)) (row accepted) = None) →
  ExecContext (earlier ++ (row <$> before)) (row event) = Some err →
  rowsFrom (before ++ event :: after) earlier =
    (earlier ++ (row <$> before) ++ [row event],
     Some ("failed to execute statement for event " +:+ Event.ID event
           +:+ ": " +:+ err)).
Proof.
  revert earlier. induction before as [|x before IH]; intros earlier Hok Hno.
  - cbn [app fmap list_fmap] in *. rewrite app_nil_r in Hno.
    cbn [insertRows]. by rewrite Hno.
  - rewrite <- app_comm_cons. cbn [insertRows].
    pose proof (Hok 0%nat x eq_refl) as Hx.
    cbn [take fmap list_fmap] in Hx. rewrite app_nil_r in Hx. rewrite Hx.
    rewrite IH.
    + rewrite fmap_cons. by rewrite <- !app_assoc.
    + intros k accepted Hk. rewrite <- app_assoc.
      apply (Hok (S k) accepted Hk).
    + rewrite <- app_assoc. by rewrite fmap_cons in Hno.
Qed.

End InsertRows.

(** X18. [batchInsertOptimized] executes the rows of the events in their order,
    each at most once, up to the first error; when it returns no error it
    has executed the row of every event. An empty batch does not reach the
    store: no statement is prepared for it. *)
Theorem batchInsertOptimized_rows (Column : Type)
    (extractAllTags : list (list string) → Extracted Column)
    (PrepareContext : string → option error)
    (ExecContext :
       list (list (InsertArg Column)) → list (InsertArg Column) →
       option error)
    (unixNow : Z) (events : list Event.t) :
  let result :=
    batchInsertOptimized Column extractAllTags PrepareContext ExecContext
      unixNow events in
  let rows := insertRow Column extractAllTags unixNow <$> events in
  executed result `prefix_of` rows ∧
  (insertErr result = None → executed result = rows) ∧
  (events = [] → result = mkInserted false [] None).
Proof.
  cbv zeta. unfold batchInsertOptimized.
  destruct events as [|event events]; [by repeat split |].
  assert ((length (event :: events) =? 0)%nat = false) as -> by done.
  destruct (PrepareContext insertStatement) as [err |].
  - cbn [executed insertErr]. split; [apply prefix_nil |]. by split.
  - destruct (insertRows_prefix Column extractAllTags ExecContext unixNow
                (event :: events) []) as (k & Hrows & Hall).
    destruct (insertRows _ _ _ _ _ _) as [rows err].
    cbn [fst snd executed insertErr] in *. subst rows. cbn [app].
    split; [| split; [| done]].
    + rewrite <- (take_drop k (event :: events)) at 2.
      rewrite fmap_app. by apply prefix_app_r.
    + intros ->. by rewrite (Hall eq_refl), firstn_all.
Qed.

(** X19. When the store accepts the rows of the first events and refuses the
    next one, the call has executed exactly these rows, the refused one
    last, none of the events after it, and its error names the identity of
    the refused event. *)
Theorem batchInsertOptimized_first_refusal (Column : Type)
    (extractAllTags : list (list string) → Extracted Column)
    (PrepareContext : string → option error)
    (ExecContext :
       list (list (InsertArg Column)) → list (InsertArg Column) →
       option error)
    (unixNow : Z) (before after : list Event.t) (event : Event.t)
    (err : error) :
  let row := insertRow Column extractAllTags unixNow in
  PrepareContext insertStatement = None →
  (∀ k accepted, before !! k = Some accepted →
     ExecContext (row <$> take k before) (row accepted) = None) →
  ExecContext (row <$> before) (row event) = Some err →
  batchInsertOptimized Column extractAllTags PrepareContext ExecContext
    unixNow (before ++ event :: after) =
    mkInserted true ((row <$> before) ++ [row event])
      (Some ("failed to execute statement for event " +:+ Event.ID event
             +:+ ": " +:+ err)).
Proof.
  intros row Hprepare Hok Hno. unfold batchInsertOptimized.
  assert ((length (before ++ event :: after) =? 0)%nat = false) as ->.
  { rewrite length_app. cbn [length]. apply Nat.eqb_neq. lia. }
  rewrite Hprepare.
  by rewrite (insertRows_refused Column extractAllTags ExecContext unixNow
                before after event err []).
Qed.

Lemma batchInsertOptimized_first_refusal_witness :
  let a := sampleEvent "a" "" in
  let b := sampleEvent "b" "" in
  let c := sampleEvent "c" "" in
  let result :=
    batchInsertOptimized _ sampleExtract samplePrepare sampleExec 7 [a; b; c] in
  executed result =
    [insertRow _ sampleExtract 7 a; insertRow _ sampleExtract 7 b] ∧
  insertErr result =
    Some "failed to execute statement for event b: row refused".
Proof.
  intros a b c result.
  assert (result =
          mkInserted true
            ([insertRow _ sampleExtract 7 a] ++ [insertRow _ sampleExtract 7 b])
            (Some ("failed to execute statement for event " +:+ Event.ID b
                   +:+ ": " +:+ "row refused"))) as ->.
  { apply (batchInsertOptimized_first_refusal _ sampleExtract samplePrepare
             sampleExec 7 [a] [c] b "row refused").
    - reflexivity.
    - intros [|k] accepted; [by intros [= <-] | done].
    - reflexivity. }
  by split.
Defined.

(** X20. Every row binds sixteen parameters, while the text of the statement
    holds fifteen placeholders: one fewer than the parameters of a row. *)
Theorem insert_row_one_more_than_placeholders (Column : Type)
    (extractAllTags : list (list string) → Extracted Column)
    (unixNow : Z) (event : Event.t) :
  length (insertRow Column extractAllTags unixNow event) = 16%nat ∧
  countChar placeholder insertStatement = 15%nat.
Proof. split; [reflexivity | by vm_compute]. Qed.

(** * Properties of the configuration *)

Section Configuration.

Import config.

Variable Getenv : string → string.
Implicit Types (c : Config).

(** What the overrides do to each field that [Validate] reads. *)
Lemma applyEnvOverrides_fields c :
  let c' := applyEnvOverrides Getenv c in
  Listen (Server c') =
    (if String.eqb (Getenv "LISTEN") "" then Listen (Server c)
     else Getenv "LISTEN") ∧
  Domain (Server c') =
    (if String.eqb (Getenv "DOMAIN") "" then Domain (Server c)
     else Getenv "DOMAIN") ∧
  DSN (ClickHouse c') =
    (if String.eqb (Getenv "CLICKHOUSE_DSN") "" then DSN (ClickHouse c)
     else Getenv "CLICKHOUSE_DSN") ∧
  BatchSize (ClickHouse c') = BatchSize (ClickHouse c) ∧
  FlushInterval (ClickHouse c') = FlushInterval (ClickHouse c) ∧
  QueueCapacity (Server c') = QueueCapacity (Server c) ∧
  MaxProcessors (Server c') = MaxProcessors (Server c).
Proof.
  cbv zeta. unfold applyEnvOverrides.
  destruct (String.eqb (Getenv "LISTEN") ""),
    (String.eqb (Getenv "DOMAIN") ""),
    (String.eqb (Getenv "CLICKHOUSE_DSN") ""); by repeat split.
Qed.

Lemma Validate_None c :
  Validate c = None ↔
  Listen (Server c) ≠ "" ∧ Domain (Server c) ≠ "" ∧
  DSN (ClickHouse c) ≠ "" ∧ 0 < BatchSize (ClickHouse c) ∧
  0 < FlushInterval (ClickHouse c) ∧ 0 < QueueCapacity (Server c) ∧
  0 < MaxProcessors (Server c).
Proof.
  unfold Validate.
  destruct (String.eqb_spec (Listen (Server c)) "");
    [split; [done | tauto] |].
  destruct (String.eqb_spec (Domain (Server c)) "");
    [split; [done | tauto] |].
  destruct (String.eqb_spec (DSN (ClickHouse c)) "");
    [split; [done | tauto] |].
  destruct (Z.leb_spec (BatchSize (ClickHouse c)) 0);
    [split; [done | lia] |].
  destruct (Z.leb_spec (FlushInterval (ClickHouse c)) 0);
    [split; [done | lia] |].
  destruct (Z.leb_spec (QueueCapacity (Server c)) 0);
    [split; [done | lia] |].
  destruct (Z.leb_spec (MaxProcessors (Server c)) 0);
    [split; [done | lia] |].
  split; [tauto | done].
Qed.

Lemma override_nonempty (value old : string) :
  old ≠ "" → (if String.eqb value "" then old else value) ≠ "".
Proof. intros H. by destruct (String.eqb_spec value ""). Qed.

Lemma applyEnvOverrides_Validate c :
  Validate c = None → Validate (applyEnvOverrides Getenv c) = None.
Proof.
  rewrite !Validate_None.
  destruct (applyEnvOverrides_fields c)
    as (-> & -> & -> & -> & -> & -> & ->).
  intros (? & ? & ? & ? & ? & ? & ?).
  repeat split; auto using override_nonempty.
Qed.

End Configuration.

(** X21. [Validate] accepts a configuration exactly when its listen address, its
    domain and its data source name are not empty and its batch size, flush
    interval, queue capacity and number of processors are positive. *)
Theorem Validate_accepts_iff (c : config.Config) :
  config.Validate c = None ↔
  config.Listen (config.Server c) ≠ "" ∧
  config.Domain (config.Server c) ≠ "" ∧
  config.DSN (config.ClickHouse c) ≠ "" ∧
  0 < config.BatchSize (config.ClickHouse c) ∧
  0 < config.FlushInterval (config.ClickHouse c) ∧
  0 < config.QueueCapacity (config.Server c) ∧
  0 < config.MaxProcessors (config.Server c).
Proof. apply Validate_None. Qed.

(** X22. The environment cannot make a valid configuration invalid: a variable
    that is set replaces its field by a non-empty string, and a variable
    that is not set leaves the field as it is. *)
Theorem env_overrides_keep_valid (Getenv : string → string)
    (c : config.Config) :
  config.Validate c = None →
  config.Validate (config.applyEnvOverrides Getenv c) = None.
Proof. apply applyEnvOverrides_Validate. Qed.

Lemma env_overrides_keep_valid_witness :
  config.Validate (config.applyEnvOverrides config.sampleEnv config.Default)
    = None ∧
  config.Listen
    (config.Server (config.applyEnvOverrides config.sampleEnv config.Default))
    = "127.0.0.1:7777".
Proof.
  split; [| reflexivity].
  apply (env_overrides_keep_valid config.sampleEnv config.Default).
  reflexivity.
Defined.

(** X23. Without a configuration file, under any environment, [Load] returns the
    defaults with the overrides of the environment and no error, and
    [Validate] accepts what it returns. *)
Theorem Load_without_file_is_valid (Getenv : string → string)
    (Stat : string → option error) (ReadFile : string → string + error)
    (Unmarshal : string → config.Config → config.Config + error) :
  is_Some
    (Stat (if String.eqb (Getenv "CONFIG_FILE") "" then "config.yaml"
           else Getenv "CONFIG_FILE")) →
  config.Load Getenv Stat ReadFile Unmarshal =
    (Some (config.applyEnvOverrides Getenv config.Default), None) ∧
  config.Validate (config.applyEnvOverrides Getenv config.Default) = None.
Proof.
  intros [err Hstat]. unfold config.Load. cbv zeta. rewrite Hstat.
  split; [done |]. by apply applyEnvOverrides_Validate.
Qed.

Lemma Load_without_file_is_valid_witness :
  config.Load config.sampleEnv config.noFile config.unreadable
    config.sampleYaml =
    (Some (config.applyEnvOverrides config.sampleEnv config.Default), None).
Proof.
  apply (Load_without_file_is_valid config.sampleEnv config.noFile
           config.unreadable config.sampleYaml).
  by eexists.
Defined.

(** X24. [Load] returns a configuration or an error, never both and never
    neither. It fails exactly when the configuration file exists and cannot
    be read or parsed. In a configuration that it returns, each of the
    listen address, the domain and the data source name is the value of its
    environment variable when that is set, whatever the file says. *)
Theorem Load_outcome (Getenv : string → string)
    (Stat : string → option error) (ReadFile : string → string + error)
    (Unmarshal : string → config.Config → config.Config + error) :
  let path :=
    if String.eqb (Getenv "CONFIG_FILE") "" then "config.yaml"
    else Getenv "CONFIG_FILE" in
  let result := config.Load Getenv Stat ReadFile Unmarshal in
  ((∃ c, result = (Some c, None)) ∨ (∃ err, result = (None, Some err))) ∧
  (result.2 ≠ None ↔
   Stat path = None ∧
   ((∃ err, ReadFile path = inr err) ∨
    (∃ data err,
       ReadFile path = inl data ∧
       Unmarshal data config.Default = inr err))) ∧
  (∀ c, result.1 = Some c →
     (Getenv "LISTEN" ≠ "" →
      config.Listen (config.Server c) = Getenv "LISTEN") ∧
     (Getenv "DOMAIN" ≠ "" →
      config.Domain (config.Server c) = Getenv "DOMAIN") ∧
     (Getenv "CLICKHOUSE_DSN" ≠ "" →
      config.DSN (config.ClickHouse c) = Getenv "CLICKHOUSE_DSN")).
Proof.
  cbv zeta. unfold config.Load. cbv zeta.
  set (path := if String.eqb (Getenv "CONFIG_FILE") "" then "config.yaml"
               else Getenv "CONFIG_FILE").
  assert (∀ base c,
            Some (config.applyEnvOverrides Getenv base) = Some c →
            (Getenv "LISTEN" ≠ "" →
             config.Listen (config.Server c) = Getenv "LISTEN") ∧
            (Getenv "DOMAIN" ≠ "" →
             config.Domain (config.Server c) = Getenv "DOMAIN") ∧
            (Getenv "CLICKHOUSE_DSN" ≠ "" →
             config.DSN (config.ClickHouse c) = Getenv "CLICKHOUSE_DSN"))
    as Henv.
  { intros base c [= <-].
    destruct (applyEnvOverrides_fields Getenv base)
      as (-> & -> & -> & _).
    repeat split; intros H%String.eqb_neq; by rewrite H. }
  destruct (Stat path) as [staterr |].
  - split; [left; by eexists |]. split; [| apply Henv].
    split; [done | by intros [[=] _]].
  - destruct (ReadFile path) as [data | err].
    + destruct (Unmarshal data config.Default) as [cfg | err] eqn:Hparse.
      * split; [left; by eexists |]. split; [| apply Henv].
        split; [done |].
        intros [_ [[err [=]] | (data' & err & [= <-] & H)]]. congruence.
      * split; [right; by eexists |]. split; [| by intros c [=]].
        split; [| done]. intros _. split; [done |]. right. by exists data, err.
    + split; [right; by eexists |]. split; [| by intros c [=]].
      split; [| done]. intros _. split; [done |]. left. by exists err.
Qed.

Lemma Load_outcome_witness :
  config.Load config.emptyEnv config.anyFile config.unreadable
    config.sampleYaml =
    (None, Some "failed to read config file: permission denied") ∧
  config.Listen
    (config.Server (config.applyEnvOverrides config.sampleEnv config.Default))
    = "127.0.0.1:7777".
Proof.
  split; [reflexivity |].
  pose proof (Load_outcome config.sampleEnv config.noFile config.unreadable
                config.sampleYaml) as (_ & _ & H).
  destruct (H (config.applyEnvOverrides config.sampleEnv config.Default)
              eq_refl) as (Hlisten & _).
  apply Hlisten. done.
Defined.
